(** * mtgscrapper.mtg_format : the format handler of the MTG article scrapper

    A shallow embedding of [src/mtgscrapper/mtg_format.py] and the properties
    of [FormatHandler] that its specification states.

    Modelling choices.
    - Python [str] values are [string]s over [ascii], read as the code
      points 0 to 255 (Latin-1); [str.lower] is modelled on them. Characters
      beyond U+00FF are not modelled (the six format names are ASCII).
    - [None] is [option]'s [None]; a format is a [string], as in the source
      (a decklist may carry any string as its pre-set format).
    - [known_formats] is a Python [dict], whose key order is insertion order
      and is read by the majority vote: an association list without duplicate
      keys, updated in place.
    - The mutated article tree is threaded through the traversal: every
      processor returns the updated node together with the updated
      accumulator.
    - Occurrence counts are [nat]: they start at 0 and are only incremented
      (numpy's 64-bit integers are out of reach of any tree that fits in
      memory and are not modelled).
    - [article.formats] is assigned twice by [process_article]; nothing reads
      it in between, and only the second assignment is kept. *)

From Stdlib Require Import String Ascii List Arith Bool Lia.
Import ListNotations.
Open Scope string_scope.
Open Scope list_scope.

(** ** Python strings *)

Module PyStr.

(** One character of [str.lower], on the code points 0 to 255: the letters
    A to Z, and the upper-case letters of Latin-1 (U+00C0 to U+00DE, but for
    the multiplication sign U+00D7), move up by 32. *)
Definition lower_ascii (c : ascii) : ascii :=
  let n := nat_of_ascii c in
  if ((65 <=? n)%nat && (n <=? 90)%nat)%bool then ascii_of_nat (n + 32)
  else if ((192 <=? n)%nat && (n <=? 222)%nat && negb (n =? 215)%nat)%bool
       then ascii_of_nat (n + 32)
  else c.

(** [s.lower()] *)
Fixpoint lower (s : string) : string :=
  match s with
  | EmptyString => EmptyString
  | String c r => String (lower_ascii c) (lower r)
  end.

(** [s.startswith(p)] *)
Fixpoint startswith (p s : string) : bool :=
  match p, s with
  | EmptyString, _ => true
  | String _ _, EmptyString => false
  | String a p', String b s' => Ascii.eqb a b && startswith p' s'
  end.

(** [sub in s] *)
Fixpoint contains (sub s : string) : bool :=
  startswith sub s ||
  match s with
  | EmptyString => false
  | String _ r => contains sub r
  end.

(** The scan of [s.count(sub)] for a non-empty [sub]: [skip] characters are
    still covered by the occurrence found last, so that occurrences do not
    overlap. *)
Fixpoint count_skip (sub s : string) (skip : nat) : nat :=
  match s with
  | EmptyString => 0
  | String _ r =>
      match skip with
      | S k => count_skip sub r k
      | O =>
          if startswith sub s
          then S (count_skip sub r (String.length sub - 1))
          else count_skip sub r 0
      end
  end.

(** [s.count(sub)] *)
Definition count (sub s : string) : nat :=
  match sub with
  | EmptyString => S (String.length s)
  | String _ _ => count_skip sub s 0
  end.

(** [sub] occurs in [s] as a contiguous piece. *)
Definition is_substring (sub s : string) : Prop :=
  exists pre post, s = (pre ++ sub ++ post)%string.

End PyStr.

(** ** numpy on one-dimensional arrays of counts *)

Module Np.

(** [a.sum()] *)
Definition sum (a : list nat) : nat := fold_right Nat.add 0 a.

(** The scan of [argmax]: [best] is the largest value seen so far, at index
    [besti]; [i] is the index of the head of [a]. *)
Fixpoint argmax_scan (a : list nat) (i besti best : nat) : nat :=
  match a with
  | [] => besti
  | x :: r =>
      if (best <? x)%nat then argmax_scan r (S i) i x
      else argmax_scan r (S i) besti best
  end.

(** [a.argmax()]: the index of the first maximum; [None] stands for the
    [ValueError] numpy raises on an empty array. *)
Definition argmax (a : list nat) : option nat :=
  match a with
  | [] => None
  | x :: r => Some (argmax_scan r 1 0 x)
  end.

(** [i] is the index of the first maximum of [a], and [m] is that maximum:
    the entries before [i] are smaller, those after it are not larger. *)
Definition first_max (a : list nat) (i m : nat) : Prop :=
  exists l1 l2,
    a = l1 ++ m :: l2 /\ length l1 = i /\
    Forall (fun x => x < m) l1 /\ Forall (fun x => x <= m) l2.

End Np.

(** ** The format vocabulary *)

(** [MTGFORMATS.__args__] *)
Definition MTGFORMATS : list string :=
  ["limited"; "standard"; "historic"; "alchemy"; "explorer"; "pioneer"].

(** [x in MTGFORMATS.__args__] *)
Definition in_formats (x : string) : bool :=
  existsb (String.eqb x) MTGFORMATS.

(** [r[0] if len(r) == 1 else None] *)
Definition the_only {A : Type} (r : list A) : option A :=
  if (length r =? 1)%nat then nth_error r 0 else None.

(** [FormatHandler.check_format_in_title] *)
Definition check_format_in_title (title : option string) : option string :=
  match title with
  | None => None
  | Some t =>
      let formats_in_title :=
        filter (fun format_ => PyStr.contains format_ (PyStr.lower t)) MTGFORMATS in
      if (length formats_in_title =? 1)%nat then nth_error formats_in_title 0
      else None
  end.

(** ** The accumulator [known_formats]

    A [dict] from format to number of occurrences, in insertion order. *)

Definition known_formats_t : Type := list (string * nat).

Module Dict.

(** [list(d)], [list(d.keys())] *)
Definition keys (d : known_formats_t) : list string := map fst d.

(** [list(d.values())] *)
Definition values (d : known_formats_t) : list nat := map snd d.

(** [d.get(k)] *)
Fixpoint get (k : string) (d : known_formats_t) : option nat :=
  match d with
  | [] => None
  | (k', v) :: r => if String.eqb k' k then Some v else get k r
  end.

(** [d[k] = v]: an existing key keeps its place, a new one goes last. *)
Fixpoint setitem (k : string) (v : nat) (d : known_formats_t) : known_formats_t :=
  match d with
  | [] => [(k, v)]
  | (k', v') :: r =>
      if String.eqb k' k then (k', v) :: r else (k', v') :: setitem k v r
  end.

(** [d.setdefault(k, v)], for its effect on [d]. *)
Fixpoint setdefault (k : string) (v : nat) (d : known_formats_t) : known_formats_t :=
  match d with
  | [] => [(k, v)]
  | (k', v') :: r =>
      if String.eqb k' k then d else (k', v') :: setdefault k v r
  end.

(** [d[k] += 1] on a key that is present (a [KeyError] otherwise, which the
    callers exclude by calling [setdefault] first: the dictionary is then
    returned as it is). *)
Fixpoint increment (k : string) (d : known_formats_t) : known_formats_t :=
  match d with
  | [] => []
  | (k', v) :: r =>
      if String.eqb k' k then (k', S v) :: r else (k', v) :: increment k r
  end.

(** [{k: 0 for k in l}] *)
Definition zeros (l : list string) : known_formats_t :=
  fold_left (fun d k => setitem k 0 d) l [].

End Dict.

(** The two statements
    [known_formats.setdefault(format_, 0); known_formats[format_] += 1]. *)
Definition count_format (format_ : string) (known_formats : known_formats_t)
  : known_formats_t :=
  Dict.increment format_ (Dict.setdefault format_ 0 known_formats).

(** The count of a format, 0 when it has no entry. *)
Definition count_of (k : string) (d : known_formats_t) : nat :=
  match Dict.get k d with
  | Some n => n
  | None => 0
  end.

(** What [setdefault(f, 0)] followed by [+= 1] does to the accumulator: the
    count of [f] goes up by one, its entry is created last when it was absent,
    and nothing else moves. *)
Definition counted_once (f : string) (d d' : known_formats_t) : Prop :=
  Dict.get f d' = Some (S (count_of f d)) /\
  (forall g, g <> f -> Dict.get g d' = Dict.get g d) /\
  Dict.keys d' =
  match Dict.get f d with
  | Some _ => Dict.keys d
  | None => Dict.keys d ++ [f]
  end.

(** [k] is the first key of [d] that holds the maximum count. *)
Definition first_max_key (d : known_formats_t) (k : string) : Prop :=
  exists i m, nth_error d i = Some (k, m) /\ Np.first_max (Dict.values d) i m.

(** ** The article tree (of [mtgscrapper.items], as the handler uses it) *)

(** A content node: its [item_type] is the constructor; [Other] is an item of
    any other type, which [process_content] leaves alone. *)
#[warnings="-register-all"]
Inductive content : Type :=
| Section (title : option string) (format_ : option string) (children : list content)
| Block (text : string) (format_ : option string)
| Decklist (format_ : option string)
| Other.

(** [node.format_] *)
Definition node_format (c : content) : option string :=
  match c with
  | Section _ format_ _ => format_
  | Block _ format_ => format_
  | Decklist format_ => format_
  | Other => None
  end.

(** Induction over a tree of content nodes: the children of a section
    satisfy the property when the section is reached. *)
Section ContentInduction.
Variable P : content -> Prop.
Hypothesis P_section : forall title format_ children,
  Forall P children -> P (Section title format_ children).
Hypothesis P_block : forall text format_, P (Block text format_).
Hypothesis P_decklist : forall format_, P (Decklist format_).
Hypothesis P_other : P Other.

Fixpoint content_induction (c : content) : P c :=
  match c with
  | Section title format_ children =>
      P_section title format_ children
        ((fix all (cs : list content) : Forall P cs :=
            match cs with
            | [] => Forall_nil P
            | c :: cs => Forall_cons c (content_induction c) (all cs)
            end) children)
  | Block text format_ => P_block text format_
  | Decklist format_ => P_decklist format_
  | Other => P_other
  end.

End ContentInduction.

Record MtgArticle : Type := mkArticle {
  article_title : option string;
  article_tags : list string;
  article_formats : list string;
  article_format : option string;
  article_content : list content
}.

(** Modelled from the spec: [MtgArticle.set_format] is declared in
    [mtgscrapper/items.py], which is not part of the sources at hand; by the
    specification it sets the article's single canonical-format field. *)
Definition set_format (article : MtgArticle) (format_ : string) : MtgArticle :=
  {| article_title := article_title article;
     article_tags := article_tags article;
     article_formats := article_formats article;
     article_format := Some format_;
     article_content := article_content article |}.

(** ** The handler *)

Record FormatHandler : Type := mkHandler { search_in_text : bool }.

(** The occurrences counted by [process_block]:
    [[block.text.lower().count(format_) for format_ in MTGFORMATS.__args__]]. *)
Definition text_occurences (text : string) : list nat :=
  map (fun format_ => PyStr.count format_ (PyStr.lower text)) MTGFORMATS.

(** The format [process_block] finds in a text, if any. *)
Definition text_format (text : string) : option string :=
  let format_occurences := text_occurences text in
  if (Np.sum format_occurences =? 0)%nat then None
  else
    match Np.argmax format_occurences with
    | Some i => nth_error MTGFORMATS i
    | None => None
    end.

(** [FormatHandler.process_block] *)
Definition process_block (self : FormatHandler) (text : string)
    (block_format : option string) (known_formats : known_formats_t)
    (format_ : option string) : content * known_formats_t :=
  match format_ with
  | Some f => (Block text (Some f), known_formats)
  | None =>
      if search_in_text self then
        match text_format text with
        | None => (Block text block_format, known_formats)
        | Some f => (Block text (Some f), count_format f known_formats)
        end
      else (Block text block_format, known_formats)
  end.

(** [FormatHandler.process_decklist] *)
Definition process_decklist (self : FormatHandler)
    (decklist_format : option string) (known_formats : known_formats_t)
    (format_ : option string) : content * known_formats_t :=
  match decklist_format with
  | None => (Decklist format_, known_formats)
  | Some f => (Decklist (Some f), count_format f known_formats)
  end.

(** The head of [process_section]: the format stamped on the section and
    handed to its children, and the accumulator after the title was looked at. *)
Definition section_format (title : option string)
    (known_formats : known_formats_t) (format_ : option string)
  : option string * known_formats_t :=
  match format_ with
  | Some f => (Some f, known_formats)
  | None =>
      let format_ := check_format_in_title title in
      match format_ with
      | Some f => (Some f, count_format f known_formats)
      | None => (None, known_formats)
      end
  end.

(** [FormatHandler.process_content], with [process_section] and its loop over
    the children as the nested recursion. *)
Fixpoint process_content (self : FormatHandler) (c : content)
    (known_formats : known_formats_t) (format_ : option string) {struct c}
  : content * known_formats_t :=
  match c with
  | Section title _ children =>
      let '(format_, known_formats) := section_format title known_formats format_ in
      let '(children, known_formats) :=
        (fix loop (cs : list content) (known_formats : known_formats_t)
           : list content * known_formats_t :=
           match cs with
           | [] => ([], known_formats)
           | c :: cs =>
               let '(c, known_formats) := process_content self c known_formats format_ in
               let '(cs, known_formats) := loop cs known_formats in
               (c :: cs, known_formats)
           end) children known_formats in
      (Section title format_ children, known_formats)
  | Block text block_format => process_block self text block_format known_formats format_
  | Decklist decklist_format => process_decklist self decklist_format known_formats format_
  | Other => (Other, known_formats)
  end.

(** [for content in ...: self.process_content(content, known_formats, format_)] *)
Fixpoint process_contents (self : FormatHandler) (cs : list content)
    (known_formats : known_formats_t) (format_ : option string)
  : list content * known_formats_t :=
  match cs with
  | [] => ([], known_formats)
  | c :: cs =>
      let '(c, known_formats) := process_content self c known_formats format_ in
      let '(cs, known_formats) := process_contents self cs known_formats format_ in
      (c :: cs, known_formats)
  end.

(** [FormatHandler.process_section] *)
Definition process_section (self : FormatHandler) (title : option string)
    (section_format_ : option string) (children : list content)
    (known_formats : known_formats_t) (format_ : option string)
  : content * known_formats_t :=
  let '(format_, known_formats) := section_format title known_formats format_ in
  let '(children, known_formats) := process_contents self children known_formats format_ in
  (Section title format_ children, known_formats).

(** The tag-derived formats of [process_article]:
    [[tag.lower() for tag in article.tags if tag.lower() in MTGFORMATS.__args__]]. *)
Definition tag_formats (tags : list string) : list string :=
  map PyStr.lower (filter (fun tag => in_formats (PyStr.lower tag)) tags).

(** The priority format of [process_article] (lines 30 to 33). *)
Definition priority_format (article : MtgArticle) : option string :=
  let formats := tag_formats (article_tags article) in
  if (length formats =? 1)%nat then nth_error formats 0
  else check_format_in_title (article_title article).

(** The traversal of [process_article] (lines 28 to 36): the processed
    children and the accumulator when the loop is over. *)
Definition traverse_article (self : FormatHandler) (article : MtgArticle)
  : list content * known_formats_t :=
  let formats := tag_formats (article_tags article) in
  let known_formats := Dict.zeros formats in
  process_contents self (article_content article) known_formats
    (priority_format article).

(** [known_formats] when the traversal of [process_article] is over. *)
Definition known_after (self : FormatHandler) (article : MtgArticle) : known_formats_t :=
  snd (traverse_article self article).

(** The majority vote of [process_article] (lines 40 to 51): the argument of
    the call [article.set_format(...)], [None] when the call is not made. *)
Definition majority_vote (priority_format : option string)
    (known_formats : known_formats_t) : option string :=
  match priority_format with
  | Some _ => None
  | None =>
      let format_occurences := Dict.values known_formats in
      let sum_occurences := Np.sum format_occurences in
      if (sum_occurences =? 0)%nat then None
      else
        match Np.argmax format_occurences with
        | None => None
        | Some max_key_index =>
            let format_list := Dict.keys known_formats in
            match nth_error format_occurences max_key_index,
                  nth_error format_list max_key_index with
            | Some m, Some f => if (m =? sum_occurences)%nat then Some f else None
            | _, _ => None
            end
        end
  end.

(** [FormatHandler.process_article] *)
Definition process_article (self : FormatHandler) (article : MtgArticle) : MtgArticle :=
  let priority_format := priority_format article in
  let '(children, known_formats) := traverse_article self article in
  let article :=
    {| article_title := article_title article;
       article_tags := article_tags article;
       article_formats := Dict.keys known_formats;
       article_format := article_format article;
       article_content := children |} in
  match majority_vote priority_format known_formats with
  | Some f => set_format article f
  | None => article
  end.

(** ** The end-to-end scenario of the specification *)

Definition pioneer_article : MtgArticle :=
  {| article_title := Some "Pioneer Deck Tech";
     article_tags := [];
     article_formats := [];
     article_format := None;
     article_content := [Section None None [Block "this is a pioneer list" None]] |}.

(** ** Observed formats *)

(** The formats observed while a node is processed under the override
    [format_], in the order of the traversal: the title match of a section
    that has no override, the text match of a block that has no override
    (when texts are searched), the format a decklist already carries. *)
Fixpoint observed (self : FormatHandler) (c : content) (format_ : option string)
  {struct c} : list string :=
  match c with
  | Section title _ children =>
      match format_ with
      | Some f => flat_map (fun c => observed self c (Some f)) children
      | None =>
          match check_format_in_title title with
          | Some f => f :: flat_map (fun c => observed self c (Some f)) children
          | None => flat_map (fun c => observed self c None) children
          end
      end
  | Block text _ =>
      match format_ with
      | Some _ => []
      | None =>
          if search_in_text self then
            match text_format text with
            | Some f => [f]
            | None => []
            end
          else []
      end
  | Decklist (Some f) => [f]
  | Decklist None => []
  | Other => []
  end.

(** The formats observed in the whole tree of an article. *)
Definition observed_in_article (self : FormatHandler) (article : MtgArticle)
  : list string :=
  flat_map (fun c => observed self c (priority_format article))
    (article_content article).

(** Each format of [l] counted once, from left to right. *)
Definition count_all (l : list string) (d : known_formats_t) : known_formats_t :=
  fold_left (fun d f => count_format f d) l d.

(** The [format_] fields of the decklists of a tree, in traversal order. *)
Fixpoint decklist_formats (c : content) : list (option string) :=
  match c with
  | Section _ _ children => flat_map decklist_formats children
  | Block _ _ => []
  | Decklist format_ => [format_]
  | Other => []
  end.

(** ** What the majority vote reads from the accumulator *)

(** The keys of the accumulator, in order, each with the fact that its count
    is positive. *)
Definition pattern (d : known_formats_t) : list (string * bool) :=
  map (fun e => (fst e, (0 <? snd e)%nat)) d.

(** The pattern after one more occurrence of [f] was counted. *)
Fixpoint mark (f : string) (p : list (string * bool)) : list (string * bool) :=
  match p with
  | [] => [(f, true)]
  | (k, b) :: r => if String.eqb k f then (k, true) :: r else (k, b) :: mark f r
  end.

(** [f] was counted at least once. *)
Definition positive (f : string) (d : known_formats_t) : Prop :=
  0 < count_of f d.

(** [k] is the one key with a positive count. *)
Definition unanimous (p : list (string * bool)) (k : string) : Prop :=
  exists p1 p2,
    p = p1 ++ (k, true) :: p2 /\
    Forall (fun e => snd e = false) p1 /\ Forall (fun e => snd e = false) p2.

(** An article with one tag that names a format and no content at all. *)
Definition tagged_article : MtgArticle :=
  {| article_title := None;
     article_tags := ["Standard"];
     article_formats := [];
     article_format := None;
     article_content := [] |}.

(** An article whose title names a format and whose only content is a
    decklist without format. *)
Definition decklist_article : MtgArticle :=
  {| article_title := Some "Pioneer Deck Tech";
     article_tags := [];
     article_formats := [];
     article_format := None;
     article_content := [Decklist None] |}.

(** An article without tags nor title: a section whose title names a format,
    holding a block and a decklist that carries that format already. *)
Definition standard_article : MtgArticle :=
  {| article_title := None;
     article_tags := [];
     article_formats := [];
     article_format := None;
     article_content :=
       [Section (Some "Standard brews") None
          [Block "two standard lists" None; Decklist (Some "standard")]] |}.

(** ** Occurrences of a word in a text *)

(** [s[k:]] *)
Fixpoint drop (k : nat) (s : string) : string :=
  match k, s with
  | O, _ => s
  | S _, EmptyString => EmptyString
  | S k, String _ r => drop k r
  end.

(** The number of positions of [s] at which [sub] occurs. *)
Fixpoint occurrences (sub s : string) : nat :=
  (if PyStr.startswith sub s then 1 else 0) +
  match s with
  | EmptyString => 0
  | String _ r => occurrences sub r
  end.

(** No proper, non-empty suffix of [sub] is a prefix of [sub]: two
    occurrences of [sub] in a text never overlap. *)
Definition unbordered (sub : string) : bool :=
  forallb (fun k => negb (PyStr.startswith (drop k sub) sub))
    (seq 1 (String.length sub - 1)).

(** ** Views of a tree *)

(** The tree with every [format_] field cleared: what the handler never
    writes. *)
Fixpoint skeleton (c : content) : content :=
  match c with
  | Section title _ children => Section title None (map skeleton children)
  | Block text _ => Block text None
  | Decklist _ => Decklist None
  | Other => Other
  end.

(** The [format_] fields of the sections of a tree, in traversal order. *)
Fixpoint section_formats (c : content) : list (option string) :=
  match c with
  | Section _ format_ children => format_ :: flat_map section_formats children
  | Block _ _ => []
  | Decklist _ => []
  | Other => []
  end.

(** The [format_] fields of the blocks of a tree, in traversal order. *)
Fixpoint block_formats (c : content) : list (option string) :=
  match c with
  | Section _ _ children => flat_map block_formats children
  | Block _ format_ => [format_]
  | Decklist _ => []
  | Other => []
  end.

(** The formats that the decklists of a tree carry, in traversal order. *)
Definition preset_formats (c : content) : list string :=
  flat_map (fun format_ => match format_ with Some f => [f] | None => [] end)
    (decklist_formats c).

(** The number of nodes of a tree. *)
Fixpoint nodes (c : content) : nat :=
  match c with
  | Section _ _ children => S (list_sum (map nodes children))
  | Block _ _ => 1
  | Decklist _ => 1
  | Other => 1
  end.

(** The tree with the text of every block replaced by [text]. *)
Fixpoint with_text (text : string) (c : content) : content :=
  match c with
  | Section title format_ children =>
      Section title format_ (map (with_text text) children)
  | Block _ format_ => Block text format_
  | Decklist format_ => Decklist format_
  | Other => Other
  end.

(** A format field that is null or holds one of the six format names. *)
Definition canonical (format_ : option string) : Prop :=
  match format_ with
  | Some f => In f MTGFORMATS
  | None => True
  end.

(** An article with one tag that names a format, a title that names another
    one, and a section holding a block and a decklist with a format of its
    own. *)
Definition single_tag_article : MtgArticle :=
  {| article_title := Some "Pioneer Deck Tech";
     article_tags := ["Standard"];
     article_formats := [];
     article_format := None;
     article_content :=
       [Section (Some "Explorer lists") None
          [Block "a pioneer list" None; Decklist (Some "modern")]] |}.

(** An article with two tags that name the same format and a title that
    names another one. *)
Definition repeated_tag_article : MtgArticle :=
  {| article_title := Some "Pioneer Deck Tech";
     article_tags := ["Standard"; "standard"];
     article_formats := [];
     article_format := None;
     article_content := [] |}.

(** An article with one tag that names a format and a decklist without
    format. *)
Definition single_tag_decklist_article : MtgArticle :=
  {| article_title := Some "Pioneer Deck Tech";
     article_tags := ["Standard"];
     article_formats := [];
     article_format := None;
     article_content := [Decklist None; Decklist (Some "modern")] |}.

(** ** Strings up to the case of their ASCII letters *)

(** The other case of an ASCII letter; any other character is left alone. *)
Definition swap_ascii (c : ascii) : ascii :=
  let n := nat_of_ascii c in
  if ((65 <=? n)%nat && (n <=? 90)%nat)%bool then ascii_of_nat (n + 32)
  else if ((97 <=? n)%nat && (n <=? 122)%nat)%bool then ascii_of_nat (n - 32)
  else c.

(** [t] is [s] with the case of some of its ASCII letters changed. *)
Fixpoint case_variant (s t : string) : bool :=
  match s, t with
  | EmptyString, EmptyString => true
  | String a s', String b t' =>
      (Ascii.eqb a b || Ascii.eqb b (swap_ascii a)) && case_variant s' t'
  | _, _ => false
  end.

(** The strings of two lists are case variants of each other, one by one. *)
Fixpoint case_variants (l1 l2 : list string) : bool :=
  match l1, l2 with
  | [], [] => true
  | s :: l1', t :: l2' => case_variant s t && case_variants l1' l2'
  | _, _ => false
  end.

(** * Properties *)

(** ** Strings *)

Lemma startswith_spec (p s : string) :
  PyStr.startswith p s = true <-> exists r, s = (p ++ r)%string.
Proof.
  revert s; induction p as [|a p IH]; intros s; simpl.
  - split; [intros _; now exists s | reflexivity].
  - destruct s as [|b s].
    + split; [discriminate | intros [r Hr]; discriminate].
    + rewrite andb_true_iff, Ascii.eqb_eq, IH. split.
      * intros [-> [r ->]]. now exists r.
      * intros [r Hr]. injection Hr as -> ->. split; [reflexivity | now exists r].
Qed.

Lemma contains_unfold (sub s : string) :
  PyStr.contains sub s =
  PyStr.startswith sub s ||
  match s with EmptyString => false | String _ r => PyStr.contains sub r end.
Proof. destruct s; reflexivity. Qed.

Lemma contains_spec (sub s : string) :
  PyStr.contains sub s = true <-> PyStr.is_substring sub s.
Proof.
  unfold PyStr.is_substring. split.
  - induction s as [|c s IH]; rewrite contains_unfold, orb_true_iff.
    + intros [H | H]; [|discriminate].
      apply startswith_spec in H as [r ->]. now exists EmptyString, r.
    + intros [H | H].
      * apply startswith_spec in H as [r ->]. now exists EmptyString, r.
      * destruct (IH H) as (pre & post & ->). now exists (String c pre), post.
  - intros (pre & post & ->). induction pre as [|c pre IH].
    + rewrite contains_unfold, orb_true_iff. left.
      apply startswith_spec. now exists post.
    + rewrite contains_unfold, orb_true_iff. right. exact IH.
Qed.

Lemma contains_false (sub s : string) :
  PyStr.contains sub s = false <-> ~ PyStr.is_substring sub s.
Proof.
  rewrite <- contains_spec. destruct (PyStr.contains sub s); split; intros H;
    try reflexivity; try discriminate; try (intros H'; discriminate).
  exfalso; now apply H.
Qed.

(** ** Lists with exactly one element *)

Section TheOnly.
Context {A : Type}.

Lemma the_only_some (r : list A) (x : A) : the_only r = Some x <-> r = [x].
Proof.
  destruct r as [|a [|b r]]; unfold the_only; simpl; split; intros H;
    try discriminate; injection H as ->; reflexivity.
Qed.

Lemma the_only_none (r : list A) :
  the_only r = None <-> r = [] \/ exists a b r', r = a :: b :: r'.
Proof.
  destruct r as [|a [|b r]]; unfold the_only; simpl; split; intros H;
    try discriminate; auto.
  - destruct H as [H | (x & y & r' & H)]; discriminate.
  - right. now exists a, b, r.
Qed.

Variable p : A -> bool.

Lemma filter_singleton (l : list A) (x : A) :
  NoDup l ->
  filter p l = [x] <->
  In x l /\ p x = true /\ forall y, In y l -> p y = true -> y = x.
Proof.
  intros Hnd. split.
  - intros H.
    assert (Hx : In x (filter p l)) by (rewrite H; now left).
    apply filter_In in Hx as [Hin Hp]. repeat split; trivial.
    intros y Hy Hpy.
    assert (Hy' : In y (filter p l)) by (apply filter_In; now split).
    rewrite H in Hy'. destruct Hy' as [<- | []]. reflexivity.
  - intros (Hin & Hp & Huniq).
    assert (Hall : forall y, In y (filter p l) -> y = x).
    { intros y Hy. apply filter_In in Hy as [Hy Hpy]. now apply Huniq. }
    assert (Hx : In x (filter p l)) by (apply filter_In; now split).
    pose proof (NoDup_filter p Hnd) as Hnd'.
    destruct (filter p l) as [|a [|b r]].
    + destruct Hx.
    + f_equal. apply Hall. now left.
    + exfalso. inversion Hnd' as [|? ? Hnot _]; subst. apply Hnot.
      rewrite (Hall a), (Hall b); simpl; auto.
Qed.

Lemma filter_nil (l : list A) :
  filter p l = [] <-> forall y, In y l -> p y = false.
Proof.
  split.
  - intros H y Hy. destruct (p y) eqn:Hp; trivial.
    assert (Hin : In y (filter p l)) by (apply filter_In; now split).
    rewrite H in Hin. destruct Hin.
  - intros H. induction l as [|a l IH]; simpl; trivial.
    rewrite (H a) by now left. apply IH. intros y Hy. apply H. now right.
Qed.

Lemma filter_two (l : list A) :
  NoDup l ->
  (exists a b r, filter p l = a :: b :: r) <->
  exists x y, x <> y /\ In x l /\ In y l /\ p x = true /\ p y = true.
Proof.
  intros Hnd. split.
  - intros (a & b & r & H).
    pose proof (NoDup_filter p Hnd) as Hnd'. rewrite H in Hnd'.
    assert (Ha : In a (filter p l)) by (rewrite H; simpl; auto).
    assert (Hb : In b (filter p l)) by (rewrite H; simpl; auto).
    apply filter_In in Ha as [Ha Hpa]. apply filter_In in Hb as [Hb Hpb].
    exists a, b. repeat split; trivial.
    intros ->. inversion Hnd' as [|? ? Hnot _]; subst. apply Hnot. now left.
  - intros (x & y & Hxy & Hx & Hy & Hpx & Hpy).
    assert (Hx' : In x (filter p l)) by (apply filter_In; now split).
    assert (Hy' : In y (filter p l)) by (apply filter_In; now split).
    destruct (filter p l) as [|a [|b r]].
    + destruct Hx'.
    + destruct Hx' as [<- | []], Hy' as [<- | []]. now elim Hxy.
    + now exists a, b, r.
Qed.

End TheOnly.

(** ** The vocabulary *)

Lemma MTGFORMATS_NoDup : NoDup MTGFORMATS.
Proof.
  unfold MTGFORMATS.
  repeat (constructor; [simpl; intuition discriminate|]). constructor.
Qed.

Lemma in_formats_spec (x : string) : in_formats x = true <-> In x MTGFORMATS.
Proof.
  unfold in_formats. rewrite existsb_exists. split.
  - intros (y & Hy & Heq). apply String.eqb_eq in Heq. now subst.
  - intros H. exists x. split; trivial. apply String.eqb_refl.
Qed.

Lemma check_format_in_title_the_only (t : string) :
  check_format_in_title (Some t) =
  the_only (filter (fun format_ => PyStr.contains format_ (PyStr.lower t)) MTGFORMATS).
Proof. reflexivity. Qed.

(** C5. [check_format_in_title] returns null on a null title; on a title [t]
    it returns the format [f] exactly when [f] is the one canonical format
    name that is a substring of the lower-cased title, and it returns null
    exactly when no canonical name or two different ones are substrings of
    the lower-cased title. *)
Theorem check_format_in_title_spec :
  check_format_in_title None = None /\
  forall t : string,
    (forall f : string,
       check_format_in_title (Some t) = Some f <->
       In f MTGFORMATS /\ PyStr.is_substring f (PyStr.lower t) /\
       forall g, In g MTGFORMATS -> PyStr.is_substring g (PyStr.lower t) -> g = f) /\
    (check_format_in_title (Some t) = None <->
       (forall g, In g MTGFORMATS -> ~ PyStr.is_substring g (PyStr.lower t)) \/
       (exists f g, f <> g /\ In f MTGFORMATS /\ In g MTGFORMATS /\
          PyStr.is_substring f (PyStr.lower t) /\
          PyStr.is_substring g (PyStr.lower t))).
Proof.
  split; [reflexivity|]. intros t.
  rewrite check_format_in_title_the_only.
  set (p := fun format_ => PyStr.contains format_ (PyStr.lower t)).
  split.
  - intros f. rewrite the_only_some, (filter_singleton p _ f MTGFORMATS_NoDup).
    unfold p. rewrite contains_spec. split.
    + intros (Hin & Hf & Hu). repeat split; trivial.
      intros g Hg Hsub. apply Hu; trivial. now apply contains_spec.
    + intros (Hin & Hf & Hu). repeat split; trivial.
      intros g Hg Hsub. apply Hu; trivial. now apply contains_spec.
  - rewrite the_only_none, filter_nil, (filter_two p _ MTGFORMATS_NoDup).
    unfold p. split.
    + intros [H | (f & g & Hfg & Hf & Hg & Hpf & Hpg)].
      * left. intros g Hg. apply contains_false. now apply H.
      * right. exists f, g. rewrite <- !contains_spec. now repeat split.
    + intros [H | (f & g & Hfg & Hf & Hg & Hpf & Hpg)].
      * left. intros g Hg. apply contains_false. now apply H.
      * right. exists f, g. rewrite !contains_spec. now repeat split.
Qed.

(** ** The accumulator *)

Lemma get_setdefault_same (f : string) (v : nat) (d : known_formats_t) :
  Dict.get f (Dict.setdefault f v d) =
  Some (match Dict.get f d with Some n => n | None => v end).
Proof.
  induction d as [|[k n] d IH]; simpl.
  - now rewrite String.eqb_refl.
  - destruct (String.eqb_spec k f) as [-> | Hne]; simpl.
    + now rewrite String.eqb_refl.
    + apply String.eqb_neq in Hne. now rewrite Hne.
Qed.

Lemma get_setdefault_other (f g : string) (v : nat) (d : known_formats_t) :
  g <> f -> Dict.get g (Dict.setdefault f v d) = Dict.get g d.
Proof.
  intros Hgf. induction d as [|[k n] d IH]; simpl.
  - destruct (String.eqb_spec f g) as [-> | _]; [now elim Hgf | reflexivity].
  - destruct (String.eqb_spec k f) as [-> | Hne]; simpl; trivial.
    now rewrite IH.
Qed.

Lemma get_increment_same (f : string) (d : known_formats_t) :
  Dict.get f (Dict.increment f d) = option_map S (Dict.get f d).
Proof.
  induction d as [|[k n] d IH]; simpl; trivial.
  destruct (String.eqb_spec k f) as [-> | Hne]; simpl.
  - now rewrite String.eqb_refl.
  - apply String.eqb_neq in Hne. now rewrite Hne.
Qed.

Lemma get_increment_other (f g : string) (d : known_formats_t) :
  g <> f -> Dict.get g (Dict.increment f d) = Dict.get g d.
Proof.
  intros Hgf. induction d as [|[k n] d IH]; simpl; trivial.
  destruct (String.eqb_spec k f) as [-> | Hne]; simpl.
  - destruct (String.eqb_spec f g) as [-> | _]; [now elim Hgf | reflexivity].
  - now rewrite IH.
Qed.

Lemma keys_increment (f : string) (d : known_formats_t) :
  Dict.keys (Dict.increment f d) = Dict.keys d.
Proof.
  induction d as [|[k n] d IH]; simpl; trivial.
  destruct (String.eqb k f); simpl; [reflexivity | now f_equal].
Qed.

Lemma keys_setdefault (f : string) (v : nat) (d : known_formats_t) :
  Dict.keys (Dict.setdefault f v d) =
  match Dict.get f d with
  | Some _ => Dict.keys d
  | None => Dict.keys d ++ [f]
  end.
Proof.
  induction d as [|[k n] d IH]; simpl; trivial.
  destruct (String.eqb k f); simpl; trivial.
  rewrite IH. now destruct (Dict.get f d).
Qed.

Lemma get_some_in_keys (f : string) (d : known_formats_t) :
  In f (Dict.keys d) <-> exists n, Dict.get f d = Some n.
Proof.
  induction d as [|[k n] d IH]; simpl.
  - split; [intros [] | intros [n H]; discriminate].
  - destruct (String.eqb_spec k f) as [-> | Hne].
    + split; [intros _; now exists n | now left].
    + rewrite IH. split; [intros [H | H]; [now elim Hne | exact H] | now right].
Qed.

Lemma get_count_format_same (f : string) (d : known_formats_t) :
  Dict.get f (count_format f d) = Some (S (count_of f d)).
Proof.
  unfold count_format, count_of.
  now rewrite get_increment_same, get_setdefault_same.
Qed.

Lemma get_count_format_other (f g : string) (d : known_formats_t) :
  g <> f -> Dict.get g (count_format f d) = Dict.get g d.
Proof.
  intros H. unfold count_format.
  now rewrite get_increment_other, get_setdefault_other.
Qed.

Lemma keys_count_format (f : string) (d : known_formats_t) :
  Dict.keys (count_format f d) =
  match Dict.get f d with
  | Some _ => Dict.keys d
  | None => Dict.keys d ++ [f]
  end.
Proof. unfold count_format. now rewrite keys_increment, keys_setdefault. Qed.

Lemma count_format_counted_once (f : string) (d : known_formats_t) :
  counted_once f d (count_format f d).
Proof.
  split; [apply get_count_format_same|].
  split; [intros g; apply get_count_format_other | apply keys_count_format].
Qed.

(** ** The node processors *)

(** C7. A decklist that carries a format keeps it and has it counted once in
    [known_formats] (the entry is created when absent), whatever the override
    is; a decklist without a format receives the override, which may be null,
    and [known_formats] is left as it was. *)
Theorem process_decklist_spec (self : FormatHandler) (known_formats : known_formats_t)
    (format_ : option string) :
  (forall f : string,
     fst (process_content self (Decklist (Some f)) known_formats format_)
       = Decklist (Some f) /\
     counted_once f known_formats
       (snd (process_content self (Decklist (Some f)) known_formats format_))) /\
  process_content self (Decklist None) known_formats format_
    = (Decklist format_, known_formats).
Proof.
  split; [|reflexivity].
  intros f. simpl. split; [reflexivity | apply count_format_counted_once].
Qed.

(** C9. A block processed under a non-null override gets the override as its
    format and nothing else happens: whatever its text, its former format and
    the [search_in_text] setting, [known_formats] is returned unchanged. *)
Theorem process_block_override (self : FormatHandler) (text : string)
    (block_format : option string) (known_formats : known_formats_t) (f : string) :
  process_content self (Block text block_format) known_formats (Some f)
    = (Block text (Some f), known_formats) /\
  process_block self text block_format known_formats (Some f)
    = (Block text (Some f), known_formats).
Proof. split; reflexivity. Qed.

(** ** The traversal *)

Lemma process_content_section (self : FormatHandler) (title : option string)
    (section_format_ : option string) (children : list content)
    (known_formats : known_formats_t) (format_ : option string) :
  process_content self (Section title section_format_ children) known_formats format_
  = process_section self title section_format_ children known_formats format_.
Proof.
  unfold process_section. simpl.
  destruct (section_format title known_formats format_) as [fmt kf].
  match goal with
  | |- (let '(_, _) := ?X in _) = _ =>
      enough (E : X = process_contents self children kf fmt) by now rewrite E
  end.
  revert kf. induction children as [|c cs IH]; intros kf; simpl; trivial.
  destruct (process_content self c kf fmt) as [c' kf']. now rewrite IH.
Qed.

Lemma process_contents_cons (self : FormatHandler) (c : content) (cs : list content)
    (known_formats : known_formats_t) (format_ : option string) :
  process_contents self (c :: cs) known_formats format_ =
  (fst (process_content self c known_formats format_)
     :: fst (process_contents self cs
               (snd (process_content self c known_formats format_)) format_),
   snd (process_contents self cs
          (snd (process_content self c known_formats format_)) format_)).
Proof.
  simpl. destruct (process_content self c known_formats format_) as [c' kf'].
  simpl. now destruct (process_contents self cs kf' format_).
Qed.

Lemma process_section_eq (self : FormatHandler) (title : option string)
    (section_format_ : option string) (children : list content)
    (known_formats : known_formats_t) (format_ : option string) :
  process_section self title section_format_ children known_formats format_ =
  (Section title (fst (section_format title known_formats format_))
     (fst (process_contents self children
             (snd (section_format title known_formats format_))
             (fst (section_format title known_formats format_)))),
   snd (process_contents self children
          (snd (section_format title known_formats format_))
          (fst (section_format title known_formats format_)))).
Proof.
  unfold process_section.
  destruct (section_format title known_formats format_) as [fmt kf]. simpl.
  now destruct (process_contents self children kf fmt).
Qed.

Lemma section_format_fst (title : option string) (known_formats : known_formats_t)
    (format_ : option string) :
  fst (section_format title known_formats format_) =
  match format_ with
  | Some f => Some f
  | None => check_format_in_title title
  end.
Proof.
  unfold section_format. destruct format_; trivial.
  now destruct (check_format_in_title title).
Qed.

(** C10. [process_section] always overwrites the section's format: with the
    override when there is one, with the (possibly null) title match
    otherwise. The format the section carried on input has no effect on the
    processed section nor on [known_formats], so it is never counted; a
    decklist's pre-set format, in contrast, is kept and counted once. *)
Theorem process_section_overwrites (self : FormatHandler) (title : option string)
    (old : option string) (children : list content)
    (known_formats : known_formats_t) (format_ : option string) :
  node_format
    (fst (process_content self (Section title old children) known_formats format_))
  = match format_ with
    | Some f => Some f
    | None => check_format_in_title title
    end /\
  (forall old' : option string,
     process_content self (Section title old' children) known_formats format_ =
     process_content self (Section title old children) known_formats format_) /\
  snd (process_content self (Section title old []) known_formats format_)
  = match format_, check_format_in_title title with
    | None, Some f => count_format f known_formats
    | _, _ => known_formats
    end /\
  (forall f : string,
     node_format (fst (process_content self (Decklist (Some f)) known_formats format_))
       = Some f /\
     count_of f (snd (process_content self (Decklist (Some f)) known_formats format_))
       = S (count_of f known_formats)).
Proof.
  split; [|split; [|split]].
  - rewrite process_content_section, process_section_eq. simpl.
    apply section_format_fst.
  - intros old'. now rewrite !process_content_section.
  - rewrite process_content_section, process_section_eq. simpl.
    unfold section_format. destruct format_; trivial.
    now destruct (check_format_in_title title).
  - intros f. simpl. split; trivial.
    unfold count_of at 1. now rewrite get_count_format_same.
Qed.

(** ** numpy's [argmax] *)

Lemma first_max_nth (a : list nat) (i m : nat) :
  Np.first_max a i m -> nth_error a i = Some m.
Proof.
  intros (l1 & l2 & -> & <- & _).
  rewrite nth_error_app2 by lia. now rewrite Nat.sub_diag.
Qed.

Lemma first_max_upper (a : list nat) (i m : nat) :
  Np.first_max a i m -> forall j x, nth_error a j = Some x -> x <= m.
Proof.
  intros (l1 & l2 & -> & <- & H1 & H2) j x Hj.
  apply nth_error_In in Hj. apply in_app_or in Hj as [Hj | [<- | Hj]].
  - rewrite Forall_forall in H1. specialize (H1 _ Hj). simpl in H1. lia.
  - lia.
  - rewrite Forall_forall in H2. now apply H2.
Qed.

Lemma first_max_before (a : list nat) (i m : nat) :
  Np.first_max a i m -> forall j x, j < i -> nth_error a j = Some x -> x < m.
Proof.
  intros (l1 & l2 & -> & <- & H1 & _) j x Hlt Hj.
  rewrite nth_error_app1 in Hj by exact Hlt.
  apply nth_error_In in Hj. rewrite Forall_forall in H1. now apply H1.
Qed.

Lemma first_max_unique (a : list nat) (i j m n : nat) :
  Np.first_max a i m -> Np.first_max a j n -> i = j /\ m = n.
Proof.
  intros Hi Hj.
  pose proof (first_max_nth _ _ _ Hi) as Ei.
  pose proof (first_max_nth _ _ _ Hj) as Ej.
  pose proof (first_max_upper _ _ _ Hi _ _ Ej) as U1.
  pose proof (first_max_upper _ _ _ Hj _ _ Ei) as U2.
  assert (i = j).
  { destruct (Nat.lt_trichotomy i j) as [Hlt | [Heq | Hgt]]; trivial.
    - pose proof (first_max_before _ _ _ Hj _ _ Hlt Ei). lia.
    - pose proof (first_max_before _ _ _ Hi _ _ Hgt Ej). lia. }
  subst j. split; trivial. rewrite Ei in Ej. now injection Ej.
Qed.

Lemma first_max_list_max (a : list nat) (i m : nat) :
  Np.first_max a i m -> list_max a = m.
Proof.
  intros (l1 & l2 & -> & _ & H1 & H2).
  rewrite list_max_app. simpl.
  assert (list_max l1 <= m).
  { apply list_max_le. eapply Forall_impl; [|exact H1]. simpl. intros; lia. }
  assert (list_max l2 <= m) by now apply list_max_le.
  lia.
Qed.

Lemma argmax_scan_spec (r l1 l2 : list nat) (i best : nat) :
  i = length (l1 ++ best :: l2) ->
  Forall (fun x => x < best) l1 ->
  Forall (fun x => x <= best) l2 ->
  exists m,
    Np.first_max (l1 ++ best :: l2 ++ r) (Np.argmax_scan r i (length l1) best) m.
Proof.
  revert l1 l2 i best. induction r as [|x r IH]; intros l1 l2 i best Hi H1 H2; simpl.
  - exists best, l1, (l2 ++ []). repeat split; trivial.
    apply Forall_app. split; [exact H2 | constructor].
  - destruct (Nat.ltb_spec best x) as [Hlt | Hge].
    + destruct (IH (l1 ++ best :: l2) [] (S i) x) as [m Hm].
      * rewrite !length_app. simpl. rewrite Hi, length_app. simpl. lia.
      * apply Forall_app. split.
        -- eapply Forall_impl; [|exact H1]. simpl. intros; lia.
        -- constructor; [exact Hlt|].
           eapply Forall_impl; [|exact H2]. simpl. intros; lia.
      * constructor.
      * exists m. rewrite <- Hi in Hm. simpl in Hm.
        now rewrite <- app_assoc in Hm.
    + destruct (IH l1 (l2 ++ [x]) (S i) best) as [m Hm].
      * rewrite Hi, !length_app. simpl. rewrite length_app. simpl. lia.
      * exact H1.
      * apply Forall_app. split; [exact H2 | now constructor].
      * exists m. now rewrite <- app_assoc in Hm.
Qed.

Lemma argmax_spec (a : list nat) :
  a <> [] -> exists i m, Np.argmax a = Some i /\ Np.first_max a i m.
Proof.
  destruct a as [|x r]; [congruence|]. intros _.
  destruct (argmax_scan_spec r [] [] 1 x eq_refl) as [m Hm]; try constructor.
  exists (Np.argmax_scan r 1 0 x), m. split; [reflexivity | exact Hm].
Qed.

Lemma sum_positive_nonempty (a : list nat) : Np.sum a <> 0 -> a <> [].
Proof. intros H ->. now apply H. Qed.

(** ** [process_article] *)

Lemma process_article_eq (self : FormatHandler) (article : MtgArticle) :
  process_article self article =
  let resolved :=
    {| article_title := article_title article;
       article_tags := article_tags article;
       article_formats := Dict.keys (known_after self article);
       article_format := article_format article;
       article_content := fst (traverse_article self article) |} in
  match majority_vote (priority_format article) (known_after self article) with
  | Some f => set_format resolved f
  | None => resolved
  end.
Proof.
  unfold process_article, known_after.
  now destruct (traverse_article self article) as [children kf].
Qed.

Lemma majority_vote_some (known_formats : known_formats_t) (k : string) :
  majority_vote None known_formats = Some k <->
  0 < Np.sum (Dict.values known_formats) /\
  list_max (Dict.values known_formats) = Np.sum (Dict.values known_formats) /\
  first_max_key known_formats k.
Proof.
  unfold majority_vote, first_max_key.
  set (occ := Dict.values known_formats).
  destruct (Nat.eqb_spec (Np.sum occ) 0) as [Hz | Hnz].
  { split; [discriminate | intros [H _]; lia]. }
  destruct (argmax_spec occ (sum_positive_nonempty _ Hnz)) as (i & m & Ha & Hfm).
  rewrite Ha. pose proof (first_max_nth _ _ _ Hfm) as Hnth. rewrite Hnth.
  assert (Hkf : exists f, nth_error known_formats i = Some (f, m)).
  { unfold occ, Dict.values in Hnth. rewrite nth_error_map in Hnth.
    destruct (nth_error known_formats i) as [[f n]|]; [|discriminate].
    simpl in Hnth. injection Hnth as ->. now exists f. }
  destruct Hkf as [f Hf].
  assert (Hkey : nth_error (Dict.keys known_formats) i = Some f).
  { unfold Dict.keys. now rewrite nth_error_map, Hf. }
  rewrite Hkey. pose proof (first_max_list_max _ _ _ Hfm) as Hmax.
  destruct (Nat.eqb_spec m (Np.sum occ)) as [Hm | Hm]; split.
  - intros [= <-]. repeat split; [lia | lia | now exists i, m].
  - intros (_ & _ & j & n & Hj & Hjn).
    destruct (first_max_unique _ _ _ _ _ Hfm Hjn) as [<- <-].
    rewrite Hf in Hj. now injection Hj as ->.
  - discriminate.
  - intros (_ & Heq & _). lia.
Qed.

(** C1. The call that sets the article's canonical format is made with the
    format [k] if and only if the priority format is null, the counts of
    [known_formats] after the traversal have a positive sum, their maximum
    equals that sum, and [k] is the first key holding the maximum; the
    article's canonical-format field then holds [k], and in every other case
    (in particular whenever the priority format is non-null) the field keeps
    the value it had. *)
Theorem process_article_canonical_format (self : FormatHandler) (article : MtgArticle) :
  (forall k : string,
     majority_vote (priority_format article) (known_after self article) = Some k <->
     priority_format article = None /\
     0 < Np.sum (Dict.values (known_after self article)) /\
     list_max (Dict.values (known_after self article))
       = Np.sum (Dict.values (known_after self article)) /\
     first_max_key (known_after self article) k) /\
  article_format (process_article self article) =
    match majority_vote (priority_format article) (known_after self article) with
    | Some k => Some k
    | None => article_format article
    end /\
  (priority_format article <> None ->
   article_format (process_article self article) = article_format article).
Proof.
  split; [|split].
  - intros k. destruct (priority_format article) as [p|] eqn:Hp.
    + simpl. split; [discriminate | intros [H _]; discriminate].
    + rewrite majority_vote_some. split; [now split | now intros [_ H]].
  - rewrite process_article_eq. simpl.
    now destruct (majority_vote (priority_format article) (known_after self article)).
  - intros Hp. rewrite process_article_eq. simpl.
    destruct (priority_format article); [reflexivity | now elim Hp].
Qed.

(** C2. The end-to-end scenario: no tags, title "Pioneer Deck Tech", one
    section without title holding one block with the text "this is a pioneer
    list", and [search_in_text] enabled. The title gives the priority format
    "pioneer"; the section and the block are both stamped "pioneer";
    [known_formats] stays empty; the canonical format stays unset and
    [article.formats] is the empty list. *)
Theorem process_article_pioneer :
  priority_format pioneer_article = Some "pioneer" /\
  known_after (mkHandler true) pioneer_article = [] /\
  process_article (mkHandler true) pioneer_article =
    {| article_title := Some "Pioneer Deck Tech";
       article_tags := [];
       article_formats := [];
       article_format := None;
       article_content :=
         [Section None (Some "pioneer")
            [Block "this is a pioneer list" (Some "pioneer")]] |}.
Proof. split; [|split]; reflexivity. Qed.

Lemma tag_formats_spec (tags : list string) (f : string) :
  In f (tag_formats tags) <->
  In f MTGFORMATS /\ exists tag, In tag tags /\ PyStr.lower tag = f.
Proof.
  unfold tag_formats. rewrite in_map_iff. split.
  - intros (tag & <- & Hin). apply filter_In in Hin as [Hin Hf].
    apply in_formats_spec in Hf. split; [exact Hf | now exists tag].
  - intros (Hf & tag & Hin & <-). exists tag. split; trivial.
    apply filter_In. split; trivial. now apply in_formats_spec.
Qed.

(** ** Tags that name a format *)

Lemma filter_singleton_split {A : Type} (p : A -> bool) (l : list A) (x : A) :
  filter p l = [x] <->
  exists l1 l2, l = l1 ++ x :: l2 /\ p x = true /\
                filter p l1 = [] /\ filter p l2 = [].
Proof.
  split.
  - induction l as [|a l IH]; simpl; [discriminate|].
    destruct (p a) eqn:E.
    + intros [= -> H]. exists [], l. now repeat split.
    + intros H. destruct (IH H) as (l1 & l2 & -> & Hx & H1 & H2).
      exists (a :: l1), l2. repeat split; trivial. simpl. now rewrite E.
  - intros (l1 & l2 & -> & Hx & H1 & H2).
    rewrite filter_app, H1. simpl. now rewrite Hx, H2.
Qed.

Lemma tag_formats_singleton (tags : list string) (f : string) :
  tag_formats tags = [f] <->
  exists l1 tag l2,
    tags = l1 ++ tag :: l2 /\ PyStr.lower tag = f /\ In f MTGFORMATS /\
    forall t, In t l1 \/ In t l2 -> ~ In (PyStr.lower t) MTGFORMATS.
Proof.
  unfold tag_formats. split.
  - intros H. apply map_eq_cons in H as (tag & r & Hf & Hl & Hr).
    apply map_eq_nil in Hr. subst r.
    apply filter_singleton_split in Hf as (l1 & l2 & -> & Hp & H1 & H2).
    exists l1, tag, l2. split; [reflexivity|]. split; [exact Hl|]. split.
    + rewrite <- Hl. now apply in_formats_spec.
    + intros t [Ht | Ht] Hin; apply in_formats_spec in Hin.
      * rewrite filter_nil in H1. rewrite (H1 t Ht) in Hin. discriminate.
      * rewrite filter_nil in H2. rewrite (H2 t Ht) in Hin. discriminate.
  - intros (l1 & tag & l2 & -> & Hl & Hf & Hno).
    assert (Hfilter : filter (fun tag => in_formats (PyStr.lower tag)) (l1 ++ tag :: l2)
                      = [tag]).
    { apply filter_singleton_split. exists l1, l2. split; [reflexivity|]. split.
      - apply in_formats_spec. now rewrite Hl.
      - split; apply filter_nil; intros t Ht;
          destruct (in_formats (PyStr.lower t)) eqn:E; trivial;
          apply in_formats_spec in E; elim (Hno t); auto. }
    rewrite Hfilter. simpl. now rewrite Hl.
Qed.

(** C6, as the code has it. When exactly one tag of the article lower-cases
    to a format name, that is, when the list of tag-derived formats has
    exactly one entry, that format is the priority format, whatever the title
    of the article is; when no tag or more than one tag does, two tags that
    name the same format counting as two, the priority format is the
    (possibly null) result of [check_format_in_title] on the title of the
    article. *)
Theorem priority_format_spec (article : MtgArticle) :
  (forall f : string,
     tag_formats (article_tags article) = [f] ->
     priority_format article = Some f /\
     forall other : MtgArticle,
       article_tags other = article_tags article ->
       priority_format other = Some f) /\
  (length (tag_formats (article_tags article)) <> 1 ->
   priority_format article = check_format_in_title (article_title article)) /\
  (forall f : string,
     tag_formats (article_tags article) = [f] <->
     exists l1 tag l2,
       article_tags article = l1 ++ tag :: l2 /\
       PyStr.lower tag = f /\ In f MTGFORMATS /\
       forall t, In t l1 \/ In t l2 -> ~ In (PyStr.lower t) MTGFORMATS).
Proof.
  unfold priority_format. split; [|split].
  - intros f Hf. rewrite Hf. simpl. split; trivial.
    intros other ->. now rewrite Hf.
  - intros Hlen. apply Nat.eqb_neq in Hlen. now rewrite Hlen.
  - intros f. apply tag_formats_singleton.
Qed.

(** C6, as stated, fails: the tags "Standard" and "standard" name one format
    only, "standard", which is the one key the accumulator is seeded with;
    yet the list of tag-derived formats has two entries, the title is
    consulted, and the priority format is "pioneer". *)
Lemma priority_format_repeated_tags :
  (forall f, In f (tag_formats (article_tags repeated_tag_article)) <-> f = "standard") /\
  Dict.keys (Dict.zeros (tag_formats (article_tags repeated_tag_article)))
  = ["standard"] /\
  check_format_in_title (article_title repeated_tag_article) = Some "pioneer" /\
  priority_format repeated_tag_article = Some "pioneer".
Proof.
  split; [|repeat split].
  intros f. simpl. split; [intros [<- | [<- | []]]; reflexivity | intros ->; now left].
Qed.

(** ** [str.count] on the format names *)

Lemma occurrences_unfold (sub s : string) :
  occurrences sub s =
  (if PyStr.startswith sub s then 1 else 0) +
  match s with EmptyString => 0 | String _ r => occurrences sub r end.
Proof. destruct s; reflexivity. Qed.

Lemma drop_append (k : nat) (p r : string) :
  k <= String.length p -> drop k (p ++ r)%string = (drop k p ++ r)%string.
Proof.
  revert p. induction k as [|k IH]; intros p Hk; [reflexivity|].
  destruct p as [|a p]; simpl in *; [lia|]. apply IH. lia.
Qed.

Lemma startswith_shorter (q p r : string) :
  String.length q <= String.length p ->
  PyStr.startswith p (q ++ r)%string = true -> PyStr.startswith q p = true.
Proof.
  revert p. induction q as [|a q IH]; intros p Hlen H; [reflexivity|].
  destruct p as [|b p]; simpl in *; [lia|].
  apply andb_true_iff in H as [Hab H]. apply Ascii.eqb_eq in Hab as ->.
  rewrite Ascii.eqb_refl. simpl. apply IH; [lia | exact H].
Qed.

Lemma drop_length (k : nat) (s : string) :
  String.length (drop k s) <= String.length s.
Proof.
  revert s. induction k as [|k IH]; intros s; simpl; [lia|].
  destruct s as [|a s]; simpl; [lia|]. specialize (IH s). lia.
Qed.

Lemma unbordered_spec (sub : string) (k : nat) :
  unbordered sub = true -> 0 < k < String.length sub ->
  PyStr.startswith (drop k sub) sub = false.
Proof.
  unfold unbordered. rewrite forallb_forall. intros H Hk.
  apply negb_true_iff. apply H. apply in_seq. lia.
Qed.

Lemma no_overlap (sub s : string) (k : nat) :
  unbordered sub = true -> PyStr.startswith sub s = true ->
  0 < k < String.length sub -> PyStr.startswith sub (drop k s) = false.
Proof.
  intros Hu Hs Hk. apply startswith_spec in Hs as [r ->].
  rewrite drop_append by lia.
  destruct (PyStr.startswith sub (drop k sub ++ r)%string) eqn:E; trivial.
  apply startswith_shorter in E; [|apply drop_length].
  now rewrite (unbordered_spec sub k Hu Hk) in E.
Qed.

Lemma count_skip_occurrences (sub : string) :
  unbordered sub = true -> sub <> EmptyString ->
  forall (s : string) (skip : nat),
    (forall k, k < skip -> PyStr.startswith sub (drop k s) = false) ->
    PyStr.count_skip sub s skip = occurrences sub s.
Proof.
  intros Hu Hne. induction s as [|c r IH]; intros skip Hskip.
  - simpl. destruct sub; [now elim Hne | reflexivity].
  - rewrite occurrences_unfold. destruct skip as [|skip].
    + cbn [PyStr.count_skip].
      destruct (PyStr.startswith sub (String c r)) eqn:E.
      * rewrite IH; [reflexivity|]. intros k Hk.
        apply (no_overlap sub (String c r) (S k) Hu E). lia.
      * apply IH. intros k Hk. lia.
    + cbn [PyStr.count_skip].
      assert (E : PyStr.startswith sub (String c r) = false)
        by (apply (Hskip 0); lia).
      rewrite E. apply IH. intros k Hk.
      apply (Hskip (S k)). lia.
Qed.

Lemma count_occurrences (f s : string) :
  In f MTGFORMATS -> PyStr.count f s = occurrences f s.
Proof.
  intros Hf.
  assert (H : unbordered f = true /\ f <> EmptyString).
  { unfold MTGFORMATS in Hf. simpl in Hf.
    repeat (destruct Hf as [<- | Hf]; [split; [reflexivity | discriminate]|]).
    destruct Hf. }
  destruct H as [Hu Hne].
  unfold PyStr.count. destruct f as [|a f]; [now elim Hne|].
  apply count_skip_occurrences; trivial. intros k Hk. lia.
Qed.

Lemma text_occurences_nth (text : string) (i : nat) (f : string) :
  nth_error MTGFORMATS i = Some f ->
  nth_error (text_occurences text) i = Some (occurrences f (PyStr.lower text)).
Proof.
  intros Hi. unfold text_occurences. rewrite nth_error_map, Hi. simpl.
  f_equal. apply count_occurrences. eapply nth_error_In, Hi.
Qed.

Lemma text_format_none (text : string) :
  Np.sum (text_occurences text) = 0 -> text_format text = None.
Proof. intros H. unfold text_format. now rewrite H. Qed.

Lemma text_format_some (text : string) :
  0 < Np.sum (text_occurences text) ->
  exists i m f,
    Np.first_max (text_occurences text) i m /\
    nth_error MTGFORMATS i = Some f /\ text_format text = Some f.
Proof.
  intros Hpos. unfold text_format.
  destruct (Nat.eqb_spec (Np.sum (text_occurences text)) 0) as [Hz | Hnz]; [lia|].
  destruct (argmax_spec _ (sum_positive_nonempty _ Hnz)) as (i & m & Ha & Hfm).
  rewrite Ha.
  assert (Hi : i < length MTGFORMATS).
  { pose proof (first_max_nth _ _ _ Hfm) as Hnth.
    assert (Hsome : nth_error (text_occurences text) i <> None) by congruence.
    apply nth_error_Some in Hsome.
    unfold text_occurences in Hsome. now rewrite length_map in Hsome. }
  destruct (nth_error MTGFORMATS i) as [f|] eqn:Hf.
  - now exists i, m, f.
  - apply nth_error_None in Hf. lia.
Qed.

(** C8. A block processed without override: when [search_in_text] is
    disabled, the block and [known_formats] are left as they were, whatever
    the text; when it is enabled, the occurrences of the six format names in
    the lower-cased text are counted, a zero total leaves the block and
    [known_formats] as they were, and otherwise the format with the highest
    count, the first one in the order of the vocabulary on a tie, is stamped
    on the block and counted once in [known_formats]. *)
Theorem process_block_no_override (self : FormatHandler) (text : string)
    (block_format : option string) (known_formats : known_formats_t) :
  (search_in_text self = false ->
   process_content self (Block text block_format) known_formats None
     = (Block text block_format, known_formats)) /\
  (search_in_text self = true ->
   (Np.sum (text_occurences text) = 0 ->
    process_content self (Block text block_format) known_formats None
      = (Block text block_format, known_formats)) /\
   (0 < Np.sum (text_occurences text) ->
    exists i m f,
      Np.first_max (text_occurences text) i m /\
      nth_error MTGFORMATS i = Some f /\
      fst (process_content self (Block text block_format) known_formats None)
        = Block text (Some f) /\
      counted_once f known_formats
        (snd (process_content self (Block text block_format) known_formats None)))) /\
  (forall i f,
     nth_error MTGFORMATS i = Some f ->
     nth_error (text_occurences text) i = Some (occurrences f (PyStr.lower text))).
Proof.
  split; [|split].
  - intros Hs. simpl. unfold process_block. now rewrite Hs.
  - intros Hs. simpl. unfold process_block. rewrite Hs. split.
    + intros Hz. now rewrite (text_format_none _ Hz).
    + intros Hpos. destruct (text_format_some _ Hpos) as (i & m & f & Hfm & Hf & Ht).
      exists i, m, f. rewrite Ht. simpl.
      repeat split; trivial; apply count_format_counted_once.
  - intros i f. apply text_occurences_nth.
Qed.

(** ** What the accumulator holds *)

Lemma in_keys_count_format (f g : string) (d : known_formats_t) :
  In g (Dict.keys (count_format f d)) <-> g = f \/ In g (Dict.keys d).
Proof.
  rewrite keys_count_format. destruct (Dict.get f d) as [n|] eqn:E.
  - split; [now right|]. intros [-> | H]; trivial.
    apply get_some_in_keys. now exists n.
  - rewrite in_app_iff. simpl. intuition.
Qed.

Lemma count_of_count_format (f g : string) (d : known_formats_t) :
  count_of g (count_format f d) =
  (if string_dec f g then 1 else 0) + count_of g d.
Proof.
  destruct (string_dec f g) as [<- | Hne].
  - unfold count_of at 1. now rewrite get_count_format_same.
  - unfold count_of. rewrite get_count_format_other by congruence. reflexivity.
Qed.

Lemma in_keys_count_all (l : list string) (g : string) (d : known_formats_t) :
  In g (Dict.keys (count_all l d)) <-> In g (Dict.keys d) \/ In g l.
Proof.
  revert d. induction l as [|f l IH]; intros d; simpl.
  - intuition.
  - unfold count_all in *. simpl. rewrite IH, in_keys_count_format. intuition.
Qed.

Lemma count_of_count_all (l : list string) (g : string) (d : known_formats_t) :
  count_of g (count_all l d) = count_of g d + count_occ string_dec l g.
Proof.
  revert d. induction l as [|f l IH]; intros d; simpl.
  - unfold count_all. simpl. lia.
  - unfold count_all in *. simpl. rewrite IH, count_of_count_format.
    destruct (string_dec f g); lia.
Qed.

Lemma count_all_app (l1 l2 : list string) (d : known_formats_t) :
  count_all (l1 ++ l2) d = count_all l2 (count_all l1 d).
Proof. unfold count_all. apply fold_left_app. Qed.

Lemma get_setitem (k g : string) (v : nat) (d : known_formats_t) :
  Dict.get g (Dict.setitem k v d) =
  if string_dec k g then Some v else Dict.get g d.
Proof.
  induction d as [|[k' n] d IH]; simpl.
  - destruct (string_dec k g) as [-> | Hne].
    + now rewrite String.eqb_refl.
    + apply String.eqb_neq in Hne. now rewrite Hne.
  - destruct (String.eqb_spec k' k) as [-> | Hk]; simpl.
    + destruct (string_dec k g) as [-> | Hne].
      * now rewrite String.eqb_refl.
      * apply String.eqb_neq in Hne. now rewrite Hne.
    + rewrite IH. destruct (String.eqb_spec k' g) as [-> | Hg]; trivial.
      destruct (string_dec k g) as [-> | _]; [now elim Hk | reflexivity].
Qed.

Lemma zeros_get (l : list string) (g : string) :
  Dict.get g (Dict.zeros l) = if in_dec string_dec g l then Some 0 else None.
Proof.
  unfold Dict.zeros.
  enough (H : forall d,
    Dict.get g (fold_left (fun d k => Dict.setitem k 0 d) l d) =
    if in_dec string_dec g l then Some 0 else Dict.get g d) by apply H.
  induction l as [|k l IH]; intros d; simpl; trivial.
  rewrite IH, get_setitem.
  destruct (string_dec k g) as [-> | Hne];
    destruct (in_dec string_dec g l); trivial.
Qed.

Lemma zeros_keys (l : list string) (g : string) :
  In g (Dict.keys (Dict.zeros l)) <-> In g l.
Proof.
  rewrite get_some_in_keys, zeros_get.
  destruct (in_dec string_dec g l) as [Hin | Hnot].
  - split; [trivial | intros _; now exists 0].
  - split; [intros [n H]; discriminate | intros H; now elim Hnot].
Qed.

Lemma zeros_count_of (l : list string) (g : string) :
  count_of g (Dict.zeros l) = 0.
Proof.
  unfold count_of. rewrite zeros_get. now destruct (in_dec string_dec g l).
Qed.

Lemma section_format_snd (title : option string) (known_formats : known_formats_t)
    (format_ : option string) :
  snd (section_format title known_formats format_) =
  match format_, check_format_in_title title with
  | None, Some f => count_format f known_formats
  | _, _ => known_formats
  end.
Proof.
  unfold section_format. destruct format_; trivial.
  now destruct (check_format_in_title title).
Qed.

Lemma process_contents_replay (self : FormatHandler) (cs : list content)
    (format_ : option string) :
  Forall (fun c => forall kf ov,
            snd (process_content self c kf ov) = count_all (observed self c ov) kf) cs ->
  forall kf,
    snd (process_contents self cs kf format_) =
    count_all (flat_map (fun c => observed self c format_) cs) kf.
Proof.
  induction 1 as [|c cs Hc _ IH]; intros kf; [reflexivity|].
  rewrite process_contents_cons. cbn [snd flat_map].
  now rewrite IH, Hc, count_all_app.
Qed.

(** The accumulator after a node was processed is the accumulator before,
    with each observed format counted once. *)
Lemma process_content_replay (self : FormatHandler) (c : content) :
  forall (kf : known_formats_t) (ov : option string),
    snd (process_content self c kf ov) = count_all (observed self c ov) kf.
Proof.
  induction c as [title old children IH | text old | [f|] |] using content_induction;
    intros kf ov; try reflexivity.
  - rewrite process_content_section, process_section_eq. cbn [snd].
    rewrite (process_contents_replay self children _ IH).
    rewrite section_format_fst, section_format_snd. cbn [observed].
    destruct ov as [f|]; trivial.
    now destruct (check_format_in_title title).
  - simpl. unfold process_block. destruct ov; trivial.
    destruct (search_in_text self); trivial.
    now destruct (text_format text).
Qed.

Lemma known_after_replay (self : FormatHandler) (article : MtgArticle) :
  known_after self article =
  count_all (observed_in_article self article)
    (Dict.zeros (tag_formats (article_tags article))).
Proof.
  unfold known_after, traverse_article, observed_in_article.
  apply process_contents_replay.
  apply Forall_forall. intros c _. apply process_content_replay.
Qed.

(** C4, as the code has it. [known_formats] starts with the tag-derived
    formats of the article, each at count 0; processing a node, from any
    state of the accumulator, adds exactly the formats observed in that node
    (section-title matches, block-text matches, pre-set decklist formats) and
    raises a count once per observation. So every key of [known_formats] is a
    tag-derived format or an observed one, and its count is the number of
    times it was observed. *)
Theorem known_formats_sources (self : FormatHandler) (article : MtgArticle) (f : string) :
  (In f (Dict.keys (Dict.zeros (tag_formats (article_tags article)))) <->
   In f (tag_formats (article_tags article))) /\
  count_of f (Dict.zeros (tag_formats (article_tags article))) = 0 /\
  (forall (c : content) (kf : known_formats_t) (ov : option string),
     (In f (Dict.keys (snd (process_content self c kf ov))) <->
      In f (Dict.keys kf) \/ In f (observed self c ov)) /\
     count_of f (snd (process_content self c kf ov)) =
       count_of f kf + count_occ string_dec (observed self c ov) f) /\
  (In f (Dict.keys (known_after self article)) <->
   In f (tag_formats (article_tags article)) \/
   In f (observed_in_article self article)) /\
  count_of f (known_after self article) =
    count_occ string_dec (observed_in_article self article) f.
Proof.
  split; [apply zeros_keys|]. split; [apply zeros_count_of|].
  split; [|split].
  - intros c kf ov. rewrite process_content_replay.
    split; [apply in_keys_count_all | apply count_of_count_all].
  - rewrite known_after_replay, in_keys_count_all, zeros_keys. reflexivity.
  - now rewrite known_after_replay, count_of_count_all, zeros_count_of.
Qed.

(** C4, as stated, fails: an article with the single tag "Standard" and no
    content ends with the key "standard" in [known_formats], at count 0,
    although nothing was observed. *)
Lemma known_formats_seeded_from_tags :
  known_after (mkHandler true) tagged_article = [("standard", 0)] /\
  In "standard" (Dict.keys (known_after (mkHandler true) tagged_article)) /\
  observed_in_article (mkHandler true) tagged_article = [].
Proof. split; [|split]; [reflexivity | now left | reflexivity]. Qed.

(** ** Running [process_article] twice *)

Lemma app_eq_by_length {A : Type} (l1 l1' l2 l2' : list A) :
  length l1 = length l1' -> l1 ++ l2 = l1' ++ l2' -> l1 = l1' /\ l2 = l2'.
Proof.
  revert l1'. induction l1 as [|a l1 IH]; intros [|b l1'] Hlen H;
    simpl in *; try discriminate.
  - now split.
  - injection H as -> H. destruct (IH l1') as [-> ->]; [lia | exact H | now split].
Qed.

Lemma process_contents_decklist_length (self : FormatHandler) (cs : list content)
    (format_ : option string) :
  Forall (fun c => forall kf ov,
            length (decklist_formats (fst (process_content self c kf ov)))
            = length (decklist_formats c)) cs ->
  forall kf,
    length (flat_map decklist_formats (fst (process_contents self cs kf format_)))
    = length (flat_map decklist_formats cs).
Proof.
  induction 1 as [|c cs Hc _ IH]; intros kf; [reflexivity|].
  rewrite process_contents_cons. cbn [fst flat_map].
  now rewrite !length_app, Hc, IH.
Qed.

(** Processing keeps the shape of the tree: a node has as many decklists
    after as before. *)
Lemma process_content_decklist_length (self : FormatHandler) (c : content) :
  forall (kf : known_formats_t) (ov : option string),
    length (decklist_formats (fst (process_content self c kf ov)))
    = length (decklist_formats c).
Proof.
  induction c as [title old children IH | text old | [f|] |] using content_induction;
    intros kf ov; try reflexivity.
  - rewrite process_content_section, process_section_eq. cbn [fst decklist_formats].
    now apply process_contents_decklist_length.
  - simpl. unfold process_block. destruct ov; trivial.
    destruct (search_in_text self); trivial.
    now destruct (text_format text).
Qed.

Lemma process_block_shape (self : FormatHandler) (text : string)
    (old : option string) (kf : known_formats_t) (ov : option string) :
  exists x, fst (process_block self text old kf ov) = Block text x.
Proof.
  unfold process_block. destruct ov as [f|]; [now exists (Some f)|].
  destruct (search_in_text self); [|now exists old].
  destruct (text_format text) as [f|]; [now exists (Some f) | now exists old].
Qed.

Lemma process_contents_observed_stable (self : FormatHandler) (cs : list content)
    (format_ : option string) :
  Forall (fun c => forall kf ov ov',
            decklist_formats (fst (process_content self c kf ov)) = decklist_formats c ->
            observed self (fst (process_content self c kf ov)) ov'
            = observed self c ov') cs ->
  forall kf ov',
    flat_map decklist_formats (fst (process_contents self cs kf format_))
    = flat_map decklist_formats cs ->
    flat_map (fun c => observed self c ov') (fst (process_contents self cs kf format_))
    = flat_map (fun c => observed self c ov') cs.
Proof.
  induction 1 as [|c cs Hc _ IH]; intros kf ov'; [reflexivity|].
  rewrite process_contents_cons. cbn [fst flat_map]. intros H.
  apply app_eq_by_length in H as [H1 H2];
    [|apply process_content_decklist_length].
  now rewrite (Hc _ _ _ H1), (IH _ _ H2).
Qed.

(** When processing a node leaves the formats of its decklists as they were,
    the processed node gives rise to the same observations as the node itself:
    the stamps left on sections and blocks are not read back. *)
Lemma process_content_observed_stable (self : FormatHandler) (c : content) :
  forall (kf : known_formats_t) (ov ov' : option string),
    decklist_formats (fst (process_content self c kf ov)) = decklist_formats c ->
    observed self (fst (process_content self c kf ov)) ov' = observed self c ov'.
Proof.
  induction c as [title old children IH | text old | [f|] |] using content_induction;
    intros kf ov ov'; try reflexivity.
  - rewrite process_content_section, process_section_eq.
    cbn [fst decklist_formats observed]. intros H.
    pose proof (fun x =>
      process_contents_observed_stable self children _ IH _ x H) as Hobs.
    destruct ov' as [g|]; [apply Hobs|].
    destruct (check_format_in_title title); [f_equal|]; apply Hobs.
  - intros _. cbn [process_content].
    destruct (process_block_shape self text old kf ov) as [x ->]. reflexivity.
  - simpl. now intros [= ->].
Qed.

Lemma process_article_title (self : FormatHandler) (article : MtgArticle) :
  article_title (process_article self article) = article_title article.
Proof.
  rewrite process_article_eq. cbv zeta.
  now destruct (majority_vote _ _).
Qed.

Lemma process_article_tags (self : FormatHandler) (article : MtgArticle) :
  article_tags (process_article self article) = article_tags article.
Proof.
  rewrite process_article_eq. cbv zeta.
  now destruct (majority_vote _ _).
Qed.

Lemma process_article_content (self : FormatHandler) (article : MtgArticle) :
  article_content (process_article self article) = fst (traverse_article self article).
Proof.
  rewrite process_article_eq. cbv zeta.
  now destruct (majority_vote _ _).
Qed.

Lemma process_article_formats (self : FormatHandler) (article : MtgArticle) :
  article_formats (process_article self article) = Dict.keys (known_after self article).
Proof.
  rewrite process_article_eq. cbv zeta.
  now destruct (majority_vote _ _).
Qed.

Lemma process_article_format (self : FormatHandler) (article : MtgArticle) :
  article_format (process_article self article) =
  match majority_vote (priority_format article) (known_after self article) with
  | Some k => Some k
  | None => article_format article
  end.
Proof.
  rewrite process_article_eq. cbv zeta.
  now destruct (majority_vote _ _).
Qed.

Lemma process_article_priority (self : FormatHandler) (article : MtgArticle) :
  priority_format (process_article self article) = priority_format article.
Proof.
  unfold priority_format.
  now rewrite process_article_title, process_article_tags.
Qed.

Lemma process_article_known_stable (self : FormatHandler) (article : MtgArticle) :
  flat_map decklist_formats (article_content (process_article self article))
  = flat_map decklist_formats (article_content article) ->
  known_after self (process_article self article) = known_after self article.
Proof.
  intros H. rewrite !known_after_replay, process_article_tags. f_equal.
  unfold observed_in_article. rewrite process_article_priority.
  rewrite process_article_content in *. unfold traverse_article in *.
  apply process_contents_observed_stable; [|exact H].
  apply Forall_forall. intros c _. apply process_content_observed_stable.
Qed.

(** ** The pattern of the accumulator *)

Lemma keys_pattern (d : known_formats_t) : Dict.keys d = map fst (pattern d).
Proof. unfold Dict.keys, pattern. rewrite map_map. reflexivity. Qed.

Lemma count_format_cons (f k : string) (v : nat) (r : known_formats_t) :
  count_format f ((k, v) :: r) =
  if String.eqb k f then (k, S v) :: r else (k, v) :: count_format f r.
Proof.
  unfold count_format. simpl. destruct (String.eqb k f) eqn:E; simpl; now rewrite E.
Qed.

Lemma pattern_count_format (f : string) (d : known_formats_t) :
  pattern (count_format f d) = mark f (pattern d).
Proof.
  induction d as [|[k v] d IH].
  - unfold count_format. simpl. now rewrite String.eqb_refl.
  - rewrite count_format_cons. simpl.
    destruct (String.eqb k f); simpl; [reflexivity | now rewrite <- IH].
Qed.

Lemma pattern_count_all (l : list string) (d1 d2 : known_formats_t) :
  pattern d1 = pattern d2 -> pattern (count_all l d1) = pattern (count_all l d2).
Proof.
  revert d1 d2. induction l as [|f l IH]; intros d1 d2 H; [exact H|].
  unfold count_all in *. simpl. apply IH.
  now rewrite !pattern_count_format, H.
Qed.

Lemma mark_positive (f : string) (d : known_formats_t) :
  positive f d -> mark f (pattern d) = pattern d.
Proof.
  unfold positive, count_of. induction d as [|[k v] d IH]; simpl; [lia|].
  destruct (String.eqb k f); intros H.
  - apply Nat.ltb_lt in H. now rewrite H.
  - now rewrite IH.
Qed.

Lemma positive_count_format (f : string) (d : known_formats_t) :
  positive f (count_format f d).
Proof.
  unfold positive. rewrite count_of_count_format.
  destruct (string_dec f f); [lia | congruence].
Qed.

Lemma positive_count_all (f : string) (l : list string) (d : known_formats_t) :
  positive f d -> positive f (count_all l d).
Proof. unfold positive. rewrite count_of_count_all. lia. Qed.

Lemma sum_app (l1 l2 : list nat) : Np.sum (l1 ++ l2) = Np.sum l1 + Np.sum l2.
Proof. induction l1 as [|x l1 IH]; simpl; [reflexivity|]. unfold Np.sum in *. simpl. lia. Qed.

Lemma sum_zero (l : list nat) : Np.sum l = 0 <-> Forall (fun x => x = 0) l.
Proof.
  induction l as [|x l IH]; simpl.
  - split; [constructor | reflexivity].
  - unfold Np.sum in *. simpl. split.
    + intros H. constructor; [lia | apply IH; lia].
    + intros H. inversion H; subst. rewrite (proj2 IH); trivial.
Qed.

Lemma pattern_zero (d : known_formats_t) :
  Forall (fun e => snd e = false) (pattern d) <-> Forall (fun x => x = 0) (Dict.values d).
Proof.
  unfold pattern, Dict.values. rewrite !Forall_map. split; intros H.
  - eapply Forall_impl; [|exact H]. simpl. intros [k v] Hv. simpl in *.
    apply Nat.ltb_ge in Hv. lia.
  - eapply Forall_impl; [|exact H]. simpl. intros [k v] Hv. simpl in *.
    apply Nat.ltb_ge. lia.
Qed.

Lemma pattern_app (d1 d2 : known_formats_t) :
  pattern (d1 ++ d2) = pattern d1 ++ pattern d2.
Proof. apply map_app. Qed.

Lemma values_app (d1 d2 : known_formats_t) :
  Dict.values (d1 ++ d2) = Dict.values d1 ++ Dict.values d2.
Proof. apply map_app. Qed.

(** The majority vote sets the format [k] exactly when [k] is the one key
    with a positive count. *)
Lemma majority_vote_unanimous (d : known_formats_t) (k : string) :
  majority_vote None d = Some k <-> unanimous (pattern d) k.
Proof.
  rewrite majority_vote_some. unfold first_max_key, unanimous. split.
  - intros (Hpos & Hmax & i & m & Hnth & Hfm).
    rewrite (first_max_list_max _ _ _ Hfm) in Hmax.
    destruct Hfm as (l1 & l2 & Hv & Hlen & _).
    unfold Dict.values in Hv.
    apply map_eq_app in Hv as (d1 & d2' & -> & <- & Hv).
    apply map_eq_cons in Hv as (e & d2 & -> & _ & <-).
    rewrite length_map in Hlen. subst i.
    rewrite nth_error_app2, Nat.sub_diag in Hnth by lia.
    simpl in Hnth. injection Hnth as ->.
    rewrite values_app in Hmax, Hpos. simpl in Hmax, Hpos.
    rewrite sum_app in Hmax, Hpos.
    change (Np.sum (m :: Dict.values d2)) with (m + Np.sum (Dict.values d2)) in *.
    exists (pattern d1), (pattern d2). split; [|split].
    + rewrite pattern_app. simpl.
      replace (0 <? m)%nat with true by (symmetry; apply Nat.ltb_lt; lia).
      reflexivity.
    + apply pattern_zero, sum_zero. fold (Dict.values d1). lia.
    + apply pattern_zero, sum_zero. lia.
  - intros (p1 & p2 & Hp & H1 & H2).
    unfold pattern in Hp.
    apply map_eq_app in Hp as (d1 & d2' & -> & <- & Hp).
    apply map_eq_cons in Hp as ([k' m] & d2 & -> & He & <-).
    simpl in He. injection He as -> Hm. apply Nat.ltb_lt in Hm.
    apply pattern_zero in H1, H2.
    assert (S1 : Np.sum (Dict.values d1) = 0) by now apply sum_zero.
    assert (S2 : Np.sum (Dict.values d2) = 0) by now apply sum_zero.
    assert (Hfm : Np.first_max (Dict.values (d1 ++ (k, m) :: d2)) (length d1) m).
    { exists (Dict.values d1), (Dict.values d2). rewrite values_app. simpl.
      split; [reflexivity|]. split; [apply length_map|]. split.
      - eapply Forall_impl; [|exact H1]. simpl. intros; lia.
      - eapply Forall_impl; [|exact H2]. simpl. intros; lia. }
    rewrite (first_max_list_max _ _ _ Hfm).
    assert (Hsum : Np.sum (Dict.values (d1 ++ (k, m) :: d2)) = m).
    { rewrite values_app, sum_app.
      change (Np.sum (Dict.values ((k, m) :: d2)))
        with (m + Np.sum (Dict.values d2)).
      lia. }
    rewrite Hsum. split; [lia|]. split; [lia|].
    exists (length d1), m. split; [|exact Hfm].
    rewrite nth_error_app2, Nat.sub_diag by lia. reflexivity.
Qed.

Lemma majority_vote_pattern (d1 d2 : known_formats_t) :
  pattern d1 = pattern d2 -> majority_vote None d1 = majority_vote None d2.
Proof.
  intros H.
  assert (E : forall k, majority_vote None d1 = Some k <-> majority_vote None d2 = Some k)
    by (intros k; now rewrite !majority_vote_unanimous, H).
  destruct (majority_vote None d1) as [k|].
  - symmetry. now apply E.
  - destruct (majority_vote None d2) as [k|]; trivial.
    now apply E.
Qed.

(** ** The stamps of a first run, read by a second run *)

Lemma observed_rerun_contents (self : FormatHandler) (cs : list content) :
  Forall (fun c => forall kf ov d1 d2,
            pattern d1 = pattern d2 ->
            (forall f, ov = Some f -> positive f d1) ->
            pattern (count_all (observed self c ov) d1) =
            pattern (count_all (observed self (fst (process_content self c kf ov)) ov) d2))
         cs ->
  forall kf ov d1 d2,
    pattern d1 = pattern d2 ->
    (forall f, ov = Some f -> positive f d1) ->
    pattern (count_all (flat_map (fun c => observed self c ov) cs) d1) =
    pattern (count_all
               (flat_map (fun c => observed self c ov)
                  (fst (process_contents self cs kf ov))) d2).
Proof.
  induction 1 as [|c cs Hc _ IH]; intros kf ov d1 d2 Hp Hov; [exact Hp|].
  rewrite process_contents_cons. cbn [fst flat_map].
  rewrite !count_all_app. apply IH.
  - now apply Hc.
  - intros f Hf. apply positive_count_all. now apply Hov.
Qed.

(** A second run over the processed node reads the accumulator the way the
    first run over the node did, as far as keys and positive counts go,
    provided the override was counted before it was handed down. *)
Lemma observed_rerun (self : FormatHandler) (c : content) :
  forall (kf : known_formats_t) (ov : option string) (d1 d2 : known_formats_t),
    pattern d1 = pattern d2 ->
    (forall f, ov = Some f -> positive f d1) ->
    pattern (count_all (observed self c ov) d1) =
    pattern (count_all (observed self (fst (process_content self c kf ov)) ov) d2).
Proof.
  induction c as [title old children IH | text old | [f|] |] using content_induction;
    intros kf ov d1 d2 Hp Hov.
  - rewrite process_content_section, process_section_eq.
    rewrite section_format_fst. cbn [fst observed].
    pose proof (observed_rerun_contents self children IH) as Hcs.
    destruct ov as [f|].
    + now apply Hcs.
    + destruct (check_format_in_title title) as [f|].
      * change (count_all (f :: ?l) ?d) with (count_all l (count_format f d)).
        apply Hcs.
        -- now rewrite !pattern_count_format, Hp.
        -- intros g [= <-]. apply positive_count_format.
      * now apply Hcs.
  - cbn [process_content].
    destruct (process_block_shape self text old kf ov) as [x ->].
    now apply pattern_count_all.
  - simpl. now apply (pattern_count_all [f]).
  - simpl. destruct ov as [f|]; [|exact Hp].
    change (pattern d1 = pattern (count_format f d2)).
    rewrite pattern_count_format, <- Hp. symmetry.
    apply mark_positive. now apply Hov.
  - exact Hp.
Qed.

Lemma known_after_rerun (self : FormatHandler) (article : MtgArticle) :
  priority_format article = None ->
  pattern (known_after self (process_article self article))
  = pattern (known_after self article).
Proof.
  intros Hp. rewrite !known_after_replay, process_article_tags.
  unfold observed_in_article. rewrite process_article_priority.
  rewrite process_article_content. unfold traverse_article.
  symmetry. apply observed_rerun_contents; trivial.
  - apply Forall_forall. intros c _. apply observed_rerun.
  - rewrite Hp. discriminate.
Qed.

(** ** What a second run observes *)

Lemma observed_rerun_in_contents (self : FormatHandler) (cs : list content) :
  Forall (fun c => forall kf ov g,
            In g (observed self (fst (process_content self c kf ov)) ov) <->
            In g (observed self c ov) \/
            (ov = Some g /\ In None (decklist_formats c))) cs ->
  forall kf ov g,
    In g (flat_map (fun c => observed self c ov)
            (fst (process_contents self cs kf ov))) <->
    In g (flat_map (fun c => observed self c ov) cs) \/
    (ov = Some g /\ In None (flat_map decklist_formats cs)).
Proof.
  induction 1 as [|c cs Hc _ IH]; intros kf ov g.
  - simpl. intuition.
  - rewrite process_contents_cons. cbn [fst flat_map].
    rewrite !in_app_iff, Hc, IH. intuition.
Qed.

(** The observations of a second run over a processed node are those of the
    first run, and the override itself when the node holds a decklist that
    carried no format. *)
Lemma observed_rerun_in (self : FormatHandler) (c : content) :
  forall (kf : known_formats_t) (ov : option string) (g : string),
    In g (observed self (fst (process_content self c kf ov)) ov) <->
    In g (observed self c ov) \/ (ov = Some g /\ In None (decklist_formats c)).
Proof.
  induction c as [title old children IH | text old | [f|] |] using content_induction;
    intros kf ov g.
  - rewrite process_content_section, process_section_eq.
    rewrite section_format_fst. cbn [fst observed decklist_formats].
    pose proof (observed_rerun_in_contents self children IH) as Hcs.
    destruct ov as [f|].
    + apply Hcs.
    + destruct (check_format_in_title title) as [f|].
      * cbn [In]. rewrite Hcs. split.
        -- intros [H | [H | [[= ->] _]]]; auto.
        -- intros [[H | H] | [H _]]; [auto | auto | discriminate].
      * rewrite Hcs. split; [intros [H | [H _]]; [auto | discriminate] | intros [H | [H _]]; [auto | discriminate]].
  - cbn [process_content].
    destruct (process_block_shape self text old kf ov) as [x ->].
    cbn [decklist_formats In]. intuition.
  - simpl. intuition discriminate.
  - simpl. destruct ov as [f|]; simpl.
    + split; [intros [<- | []]; right; auto | intros [[] | [[= ->] _]]; now left].
    + split; [intros [] | intros [[] | [H _]]; discriminate].
  - simpl. intuition.
Qed.

(** ** The keys after a second run *)

Lemma keys_count_format_same (f : string) (d1 d2 : known_formats_t) :
  Dict.keys d1 = Dict.keys d2 ->
  Dict.keys (count_format f d1) = Dict.keys (count_format f d2).
Proof.
  intros H. rewrite !keys_count_format, H.
  destruct (Dict.get f d1) as [n|] eqn:E1, (Dict.get f d2) as [m|] eqn:E2; trivial.
  - assert (Hin : In f (Dict.keys d1)) by (apply get_some_in_keys; eauto).
    rewrite H in Hin. apply get_some_in_keys in Hin as [k Hk]. congruence.
  - assert (Hin : In f (Dict.keys d2)) by (apply get_some_in_keys; eauto).
    rewrite <- H in Hin. apply get_some_in_keys in Hin as [k Hk]. congruence.
Qed.

Lemma keys_count_all_same (l : list string) (d1 d2 : known_formats_t) :
  Dict.keys d1 = Dict.keys d2 ->
  Dict.keys (count_all l d1) = Dict.keys (count_all l d2).
Proof.
  revert d1 d2. induction l as [|f l IH]; intros d1 d2 H; [exact H|].
  apply IH. now apply keys_count_format_same.
Qed.

Lemma keys_count_format_present (f : string) (d : known_formats_t) :
  In f (Dict.keys d) -> Dict.keys (count_format f d) = Dict.keys d.
Proof.
  intros H. rewrite keys_count_format.
  apply get_some_in_keys in H as [n ->]. reflexivity.
Qed.

Lemma observed_rerun_keys_contents (self : FormatHandler) (cs : list content) :
  Forall (fun c => forall kf ov d1 d2,
            Dict.keys d1 = Dict.keys d2 ->
            (forall f, ov = Some f -> In f (Dict.keys d1)) ->
            Dict.keys (count_all (observed self c ov) d1) =
            Dict.keys (count_all
                         (observed self (fst (process_content self c kf ov)) ov) d2))
         cs ->
  forall kf ov d1 d2,
    Dict.keys d1 = Dict.keys d2 ->
    (forall f, ov = Some f -> In f (Dict.keys d1)) ->
    Dict.keys (count_all (flat_map (fun c => observed self c ov) cs) d1) =
    Dict.keys (count_all
                 (flat_map (fun c => observed self c ov)
                    (fst (process_contents self cs kf ov))) d2).
Proof.
  induction 1 as [|c cs Hc _ IH]; intros kf ov d1 d2 Hk Hov; [exact Hk|].
  rewrite process_contents_cons. cbn [fst flat_map].
  rewrite !count_all_app. apply IH.
  - now apply Hc.
  - intros f Hf. apply in_keys_count_all. left. now apply Hov.
Qed.

(** A second run over the processed node gives the accumulator the keys
    that the first run over the node gave it, in the same order, provided the
    override is a key already. *)
Lemma observed_rerun_keys (self : FormatHandler) (c : content) :
  forall (kf : known_formats_t) (ov : option string) (d1 d2 : known_formats_t),
    Dict.keys d1 = Dict.keys d2 ->
    (forall f, ov = Some f -> In f (Dict.keys d1)) ->
    Dict.keys (count_all (observed self c ov) d1) =
    Dict.keys (count_all (observed self (fst (process_content self c kf ov)) ov) d2).
Proof.
  induction c as [title old children IH | text old | [f|] |] using content_induction;
    intros kf ov d1 d2 Hk Hov.
  - rewrite process_content_section, process_section_eq.
    rewrite section_format_fst. cbn [fst observed].
    pose proof (observed_rerun_keys_contents self children IH) as Hcs.
    destruct ov as [f|].
    + now apply Hcs.
    + destruct (check_format_in_title title) as [f|].
      * change (count_all (f :: ?l) ?d) with (count_all l (count_format f d)).
        apply Hcs.
        -- now apply keys_count_format_same.
        -- intros g [= <-]. apply in_keys_count_format. now left.
      * now apply Hcs.
  - cbn [process_content].
    destruct (process_block_shape self text old kf ov) as [x ->].
    now apply keys_count_all_same.
  - simpl. now apply (keys_count_all_same [f]).
  - simpl. destruct ov as [f|]; [|exact Hk].
    change (Dict.keys d1 = Dict.keys (count_format f d2)).
    rewrite <- (keys_count_format_same f d1 d2 Hk). symmetry.
    apply keys_count_format_present. now apply Hov.
  - exact Hk.
Qed.

Lemma known_after_rerun_keys (self : FormatHandler) (article : MtgArticle) :
  (forall f, priority_format article = Some f ->
             In f (tag_formats (article_tags article))) ->
  Dict.keys (known_after self (process_article self article))
  = Dict.keys (known_after self article).
Proof.
  intros Hp. rewrite !known_after_replay, process_article_tags.
  unfold observed_in_article. rewrite process_article_priority.
  rewrite process_article_content. unfold traverse_article.
  symmetry. apply observed_rerun_keys_contents; trivial.
  - apply Forall_forall. intros c _. apply observed_rerun_keys.
  - intros f Hf. apply zeros_keys. now apply Hp.
Qed.

Lemma known_after_rerun_in (self : FormatHandler) (article : MtgArticle) (g : string) :
  In g (Dict.keys (known_after self (process_article self article))) <->
  In g (Dict.keys (known_after self article)) \/
  (priority_format article = Some g /\
   In None (flat_map decklist_formats (article_content article))).
Proof.
  rewrite !known_after_replay, process_article_tags, !in_keys_count_all.
  unfold observed_in_article. rewrite process_article_priority.
  rewrite process_article_content. unfold traverse_article.
  rewrite observed_rerun_in_contents.
  - intuition.
  - apply Forall_forall. intros c _. apply observed_rerun_in.
Qed.

(** C3, as the code has it. A run never changes the tags. A second run on
    the processed tree gives the same canonical format as the first run. The
    formats of [article.formats] after the second run are those after the
    first run, and the priority format when the article has one and a
    decklist of the tree carried no format; so the two runs give the same set
    of formats exactly when the article has no priority format, or no
    decklist lacked a format, or the priority format is in [article.formats]
    after the first run already. The list itself is the same, order
    included, when the priority format is null or tag-derived (so whenever
    the list of tag-derived formats has exactly one entry), and when the
    first run left the [format_] field of every decklist as it was. *)
Theorem process_article_twice (self : FormatHandler) (article : MtgArticle) :
  article_tags (process_article self article) = article_tags article /\
  article_format (process_article self (process_article self article))
  = article_format (process_article self article) /\
  (forall g : string,
     In g (article_formats (process_article self (process_article self article))) <->
     In g (article_formats (process_article self article)) \/
     (priority_format article = Some g /\
      In None (flat_map decklist_formats (article_content article)))) /\
  ((forall g : string,
      In g (article_formats (process_article self (process_article self article))) <->
      In g (article_formats (process_article self article))) <->
   (forall f : string,
      priority_format article = Some f ->
      In None (flat_map decklist_formats (article_content article)) ->
      In f (article_formats (process_article self article)))) /\
  (priority_format article = None ->
   article_formats (process_article self (process_article self article))
   = article_formats (process_article self article)) /\
  ((forall f : string,
      priority_format article = Some f ->
      In f (tag_formats (article_tags article))) ->
   article_formats (process_article self (process_article self article))
   = article_formats (process_article self article)) /\
  (length (tag_formats (article_tags article)) = 1 ->
   article_formats (process_article self (process_article self article))
   = article_formats (process_article self article)) /\
  (flat_map decklist_formats (article_content (process_article self article))
   = flat_map decklist_formats (article_content article) ->
   article_formats (process_article self (process_article self article))
   = article_formats (process_article self article)).
Proof.
  assert (Hin : forall g : string,
     In g (article_formats (process_article self (process_article self article))) <->
     In g (article_formats (process_article self article)) \/
     (priority_format article = Some g /\
      In None (flat_map decklist_formats (article_content article))))
    by (intros g; rewrite !process_article_formats; apply known_after_rerun_in).
  assert (Htag : (forall f : string,
      priority_format article = Some f ->
      In f (tag_formats (article_tags article))) ->
   article_formats (process_article self (process_article self article))
   = article_formats (process_article self article))
    by (intros H; rewrite !process_article_formats;
        now apply known_after_rerun_keys).
  split; [apply process_article_tags|].
  split; [|split; [exact Hin|split; [|split; [|split; [exact Htag|split]]]]].
  - rewrite (process_article_format self (process_article self article)).
    rewrite process_article_priority, process_article_format.
    destruct (priority_format article) as [p|] eqn:Hp; [reflexivity|].
    rewrite (majority_vote_pattern _ _ (known_after_rerun self article Hp)).
    now destruct (majority_vote None (known_after self article)).
  - split.
    + intros Hsame f Hf Hnone. apply Hsame, Hin. right. now split.
    + intros Hcover g. rewrite Hin. split; [|now left].
      intros [H | [Hf Hnone]]; [exact H | now apply Hcover].
  - intros Hp. rewrite !process_article_formats, !keys_pattern.
    now rewrite (known_after_rerun self article Hp).
  - intros Hlen. apply Htag. intros f. unfold priority_format.
    apply Nat.eqb_eq in Hlen. rewrite Hlen. apply nth_error_In.
  - intros H. rewrite !process_article_formats.
    now rewrite (process_article_known_stable self article H).
Qed.

Lemma process_article_twice_witness :
  priority_format single_tag_decklist_article = Some "standard" /\
  article_content (process_article (mkHandler true) single_tag_decklist_article)
  = [Decklist (Some "standard"); Decklist (Some "modern")] /\
  article_formats (process_article (mkHandler true) single_tag_decklist_article)
  = ["standard"; "modern"] /\
  article_formats
    (process_article (mkHandler true)
       (process_article (mkHandler true) single_tag_decklist_article))
  = article_formats (process_article (mkHandler true) single_tag_decklist_article) /\
  article_format
    (process_article (mkHandler true)
       (process_article (mkHandler true) single_tag_decklist_article))
  = article_format (process_article (mkHandler true) single_tag_decklist_article).
Proof.
  split; [reflexivity|]. split; [reflexivity|]. split; [reflexivity|].
  destruct (process_article_twice (mkHandler true) single_tag_decklist_article)
    as (_ & Hformat & _ & _ & _ & _ & Hone & _).
  split; [apply Hone; reflexivity | exact Hformat].
Defined.

(** C3, as stated, fails: the decklist of [decklist_article] has no format
    and receives the priority format "pioneer" in the first run, uncounted;
    the second run finds that format on the decklist and counts it. The tags
    are the same, and [article.formats] is empty after the first run and
    holds "pioneer" after the second. *)
Lemma process_article_twice_differs :
  article_tags (process_article (mkHandler true) decklist_article)
  = article_tags decklist_article /\
  article_formats (process_article (mkHandler true) decklist_article) = [] /\
  article_formats
    (process_article (mkHandler true) (process_article (mkHandler true) decklist_article))
  = ["pioneer"].
Proof. split; [|split]; reflexivity. Qed.

(** * Further properties of the handler *)

(** ** What a run leaves untouched *)

Lemma process_contents_fst_map (self : FormatHandler) {B : Type} (g : content -> B)
    (h : option string -> content -> B) (cs : list content) (format_ : option string) :
  Forall (fun c => forall kf, g (fst (process_content self c kf format_)) = h format_ c) cs ->
  forall kf,
    map g (fst (process_contents self cs kf format_)) = map (h format_) cs.
Proof.
  induction 1 as [|c cs Hc _ IH]; intros kf; [reflexivity|].
  rewrite process_contents_cons. cbn [fst map]. now rewrite Hc, IH.
Qed.

Lemma process_content_skeleton (self : FormatHandler) (c : content) :
  forall (kf : known_formats_t) (ov : option string),
    skeleton (fst (process_content self c kf ov)) = skeleton c.
Proof.
  induction c as [title old children IH | text old | [f|] |] using content_induction;
    intros kf ov; try reflexivity.
  - rewrite process_content_section, process_section_eq. cbn [fst skeleton].
    f_equal.
    apply (process_contents_fst_map self skeleton (fun _ => skeleton)).
    eapply Forall_impl; [|exact IH]. intros c Hc kf'. apply Hc.
  - cbn [process_content].
    destruct (process_block_shape self text old kf ov) as [x ->]. reflexivity.
Qed.

(** X1. A run writes format fields only: the title and the tags of the
    article are kept, and the processed tree is the tree it was given up to
    the [format_] fields of its nodes (same nodes, same order, same titles
    and texts). *)
Theorem process_article_frame (self : FormatHandler) (article : MtgArticle) :
  article_title (process_article self article) = article_title article /\
  article_tags (process_article self article) = article_tags article /\
  map skeleton (article_content (process_article self article))
  = map skeleton (article_content article).
Proof.
  split; [apply process_article_title|]. split; [apply process_article_tags|].
  rewrite process_article_content. unfold traverse_article.
  apply (process_contents_fst_map self skeleton (fun _ => skeleton)).
  apply Forall_forall. intros c _ kf. apply process_content_skeleton.
Qed.

(** ** Under an override *)

Lemma process_contents_fst_flat_map (self : FormatHandler) {B : Type}
    (g h : content -> list B) (cs : list content) (format_ : option string) :
  Forall (fun c => forall kf, g (fst (process_content self c kf format_)) = h c) cs ->
  forall kf,
    flat_map g (fst (process_contents self cs kf format_)) = flat_map h cs.
Proof.
  induction 1 as [|c cs Hc _ IH]; intros kf; [reflexivity|].
  rewrite process_contents_cons. cbn [fst flat_map]. now rewrite Hc, IH.
Qed.

Lemma map_flat_map {A B C : Type} (k : B -> C) (g : A -> list B) (l : list A) :
  map k (flat_map g l) = flat_map (fun x => map k (g x)) l.
Proof.
  induction l as [|x l IH]; simpl; [reflexivity|]. now rewrite map_app, IH.
Qed.

Lemma flat_map_flat_map {A B C : Type} (k : B -> list C) (g : A -> list B) (l : list A) :
  flat_map k (flat_map g l) = flat_map (fun x => flat_map k (g x)) l.
Proof.
  induction l as [|x l IH]; simpl; [reflexivity|]. now rewrite flat_map_app, IH.
Qed.

Lemma flat_map_pointwise {A B : Type} (g h : A -> list B) (l : list A) :
  Forall (fun x => g x = h x) l -> flat_map g l = flat_map h l.
Proof. induction 1 as [|x l Hx _ IH]; simpl; [reflexivity|]. now rewrite Hx, IH. Qed.

Lemma override_section_formats (self : FormatHandler) (f : string) (c : content) :
  forall kf,
    section_formats (fst (process_content self c kf (Some f)))
    = map (fun _ => Some f) (section_formats c).
Proof.
  induction c as [title old children IH | text old | [g|] |] using content_induction;
    intros kf; try reflexivity.
  rewrite process_content_section, process_section_eq.
  cbn [fst section_formats section_format map]. f_equal.
  rewrite map_flat_map. now apply process_contents_fst_flat_map.
Qed.

Lemma override_block_formats (self : FormatHandler) (f : string) (c : content) :
  forall kf,
    block_formats (fst (process_content self c kf (Some f)))
    = map (fun _ => Some f) (block_formats c).
Proof.
  induction c as [title old children IH | text old | [g|] |] using content_induction;
    intros kf; try reflexivity.
  rewrite process_content_section, process_section_eq.
  cbn [fst block_formats section_format].
  rewrite map_flat_map. now apply process_contents_fst_flat_map.
Qed.

Lemma override_decklist_formats (self : FormatHandler) (f : string) (c : content) :
  forall kf,
    decklist_formats (fst (process_content self c kf (Some f)))
    = map (fun d => match d with Some g => Some g | None => Some f end)
        (decklist_formats c).
Proof.
  induction c as [title old children IH | text old | [g|] |] using content_induction;
    intros kf; try reflexivity.
  rewrite process_content_section, process_section_eq.
  cbn [fst decklist_formats section_format].
  rewrite map_flat_map. now apply process_contents_fst_flat_map.
Qed.

(** X2. Under a non-null override no section and no block of the subtree is
    left without a format: each of them ends with the override; a decklist
    keeps the format it carries and receives the override when it carries
    none. *)
Theorem process_content_override_stamps (self : FormatHandler) (c : content)
    (known_formats : known_formats_t) (f : string) :
  section_formats (fst (process_content self c known_formats (Some f)))
  = map (fun _ => Some f) (section_formats c) /\
  block_formats (fst (process_content self c known_formats (Some f)))
  = map (fun _ => Some f) (block_formats c) /\
  decklist_formats (fst (process_content self c known_formats (Some f)))
  = map (fun d => match d with Some g => Some g | None => Some f end)
      (decklist_formats c).
Proof.
  split; [apply override_section_formats|].
  split; [apply override_block_formats | apply override_decklist_formats].
Qed.

Lemma observed_override (self : FormatHandler) (f : string) (c : content) :
  observed self c (Some f) = preset_formats c.
Proof.
  induction c as [title old children IH | text old | [g|] |] using content_induction;
    try reflexivity.
  cbn [observed]. unfold preset_formats. cbn [decklist_formats].
  rewrite flat_map_flat_map. now apply flat_map_pointwise.
Qed.

(** X3. Under a non-null override the accumulator receives the formats that
    the decklists of the subtree already carry, each counted once in
    traversal order, and nothing else: no title and no text is looked at,
    whatever the [search_in_text] setting. *)
Theorem process_content_override_counts (self : FormatHandler) (c : content)
    (known_formats : known_formats_t) (f : string) :
  snd (process_content self c known_formats (Some f))
  = count_all (preset_formats c) known_formats /\
  forall g : string,
    count_of g (snd (process_content self c known_formats (Some f)))
    = count_of g known_formats + count_occ string_dec (preset_formats c) g.
Proof.
  rewrite process_content_replay, observed_override.
  split; [reflexivity | intros g; apply count_of_count_all].
Qed.

(** ** A run over a processed tree *)

Lemma process_contents_restamp (self : FormatHandler) (cs : list content)
    (format_ : option string) :
  Forall (fun c => forall kf kf' ov,
            fst (process_content self (fst (process_content self c kf ov)) kf' ov)
            = fst (process_content self c kf ov)) cs ->
  forall kf kf',
    fst (process_contents self (fst (process_contents self cs kf format_)) kf' format_)
    = fst (process_contents self cs kf format_).
Proof.
  induction 1 as [|c cs Hc _ IH]; intros kf kf'; [reflexivity|].
  rewrite (process_contents_cons self c cs). cbn [fst].
  rewrite process_contents_cons. cbn [fst]. now rewrite Hc, IH.
Qed.

(** Processing a processed node again, under the same override, gives the
    same node: the stamps of a run are the stamps of the next one. *)
Lemma process_content_restamp (self : FormatHandler) (c : content) :
  forall (kf kf' : known_formats_t) (ov : option string),
    fst (process_content self (fst (process_content self c kf ov)) kf' ov)
    = fst (process_content self c kf ov).
Proof.
  induction c as [title old children IH | text old | [f|] |] using content_induction;
    intros kf kf' ov; try reflexivity.
  - rewrite (process_content_section self title old), process_section_eq. cbn [fst].
    rewrite process_content_section, process_section_eq. cbn [fst].
    rewrite !section_format_fst. f_equal.
    now apply process_contents_restamp.
  - cbn [process_content]. unfold process_block.
    destruct ov as [f|]; [reflexivity|].
    destruct (search_in_text self) eqn:Hs.
    + destruct (text_format text) as [f|] eqn:Ht; cbn [fst process_content];
        unfold process_block; now rewrite Hs, Ht.
    + cbn [fst process_content]. unfold process_block. now rewrite Hs.
  - simpl. now destruct ov.
Qed.

Lemma article_eq (a b : MtgArticle) :
  article_title a = article_title b ->
  article_tags a = article_tags b ->
  article_formats a = article_formats b ->
  article_format a = article_format b ->
  article_content a = article_content b ->
  a = b.
Proof. destruct a, b; simpl; intros; now subst. Qed.

Lemma process_article_content_twice (self : FormatHandler) (article : MtgArticle) :
  article_content (process_article self (process_article self article))
  = article_content (process_article self article).
Proof.
  rewrite (process_article_content self (process_article self article)).
  unfold traverse_article.
  rewrite process_article_priority, process_article_tags, process_article_content.
  unfold traverse_article. apply process_contents_restamp.
  apply Forall_forall. intros c _. apply process_content_restamp.
Qed.

Lemma traverse_article_ext (self : FormatHandler) (a b : MtgArticle) :
  article_title a = article_title b ->
  article_tags a = article_tags b ->
  article_content a = article_content b ->
  traverse_article self a = traverse_article self b /\
  priority_format a = priority_format b.
Proof.
  intros Ht Hg Hc. unfold traverse_article, priority_format.
  now rewrite Ht, Hg, Hc.
Qed.

(** X4. The tree is settled after one run: a second run leaves every node
    exactly as the first run left it. From the second run on nothing moves at
    all: a third run returns the article that the second run returned. *)
Theorem process_article_settles (self : FormatHandler) (article : MtgArticle) :
  article_content (process_article self (process_article self article))
  = article_content (process_article self article) /\
  process_article self (process_article self (process_article self article))
  = process_article self (process_article self article).
Proof.
  split; [apply process_article_content_twice|].
  set (a1 := process_article self article).
  set (a2 := process_article self a1).
  destruct (traverse_article_ext self a2 a1) as [Htr Hpr].
  { apply process_article_title. }
  { apply process_article_tags. }
  { apply process_article_content_twice. }
  assert (Hk : known_after self a2 = known_after self a1)
    by (unfold known_after; now rewrite Htr).
  apply article_eq.
  - apply process_article_title.
  - apply process_article_tags.
  - rewrite process_article_formats, Hk. symmetry. apply process_article_formats.
  - rewrite process_article_format, Hpr, Hk.
    pose proof (process_article_format self a1) as Hf. fold a2 in Hf. revert Hf.
    destruct (majority_vote (priority_format a1) (known_after self a1)) as [k|];
      intros Hf; [now rewrite Hf | reflexivity].
  - apply process_article_content_twice.
Qed.

(** ** The keys of the accumulator *)

Lemma keys_setitem (k : string) (v : nat) (d : known_formats_t) :
  Dict.keys (Dict.setitem k v d) =
  match Dict.get k d with
  | Some _ => Dict.keys d
  | None => Dict.keys d ++ [k]
  end.
Proof.
  induction d as [|[k' n] d IH]; simpl; trivial.
  destruct (String.eqb k' k); simpl; trivial.
  rewrite IH. now destruct (Dict.get k d).
Qed.

Lemma NoDup_snoc (l : list string) (x : string) :
  NoDup l -> ~ In x l -> NoDup (l ++ [x]).
Proof.
  intros Hl Hx. apply NoDup_app; trivial.
  - constructor; [intros [] | constructor].
  - intros a Ha [<- | []]. now apply Hx.
Qed.

Lemma get_none_not_in_keys (f : string) (d : known_formats_t) :
  Dict.get f d = None -> ~ In f (Dict.keys d).
Proof. intros H Hin. apply get_some_in_keys in Hin as [n Hn]. congruence. Qed.

Lemma NoDup_keys_count_format (f : string) (d : known_formats_t) :
  NoDup (Dict.keys d) -> NoDup (Dict.keys (count_format f d)).
Proof.
  intros H. rewrite keys_count_format. destruct (Dict.get f d) eqn:E; trivial.
  apply NoDup_snoc; trivial. now apply get_none_not_in_keys.
Qed.

Lemma NoDup_keys_count_all (l : list string) (d : known_formats_t) :
  NoDup (Dict.keys d) -> NoDup (Dict.keys (count_all l d)).
Proof.
  revert d. induction l as [|f l IH]; intros d H; [exact H|].
  apply IH. now apply NoDup_keys_count_format.
Qed.

Lemma NoDup_keys_zeros (l : list string) : NoDup (Dict.keys (Dict.zeros l)).
Proof.
  unfold Dict.zeros.
  enough (H : forall d, NoDup (Dict.keys d) ->
                        NoDup (Dict.keys (fold_left (fun d k => Dict.setitem k 0 d) l d)))
    by (apply H; constructor).
  induction l as [|k l IH]; intros d Hd; [exact Hd|].
  simpl. apply IH. rewrite keys_setitem. destruct (Dict.get k d) eqn:E; trivial.
  apply NoDup_snoc; trivial. now apply get_none_not_in_keys.
Qed.

Lemma NoDup_keys_known_after (self : FormatHandler) (article : MtgArticle) :
  NoDup (Dict.keys (known_after self article)).
Proof.
  rewrite known_after_replay. apply NoDup_keys_count_all, NoDup_keys_zeros.
Qed.

Lemma keys_count_all_prefix (l : list string) (d : known_formats_t) :
  exists rest, Dict.keys (count_all l d) = Dict.keys d ++ rest.
Proof.
  revert d. induction l as [|f l IH]; intros d.
  - exists []. unfold count_all. simpl. now rewrite app_nil_r.
  - destruct (IH (count_format f d)) as [rest Hrest].
    change (count_all (f :: l) d) with (count_all l (count_format f d)).
    rewrite Hrest, keys_count_format. destruct (Dict.get f d).
    + now exists rest.
    + exists ([f] ++ rest). now rewrite app_assoc.
Qed.

Lemma NoDup_app_disjoint {A : Type} (l r : list A) (x : A) :
  NoDup (l ++ r) -> In x l -> In x r -> False.
Proof.
  induction l as [|a l IH]; simpl; intros H Hl Hr; [destruct Hl|].
  inversion H as [|? ? Ha Hnd]; subst. destruct Hl as [-> | Hl].
  - apply Ha, in_or_app. now right.
  - now apply IH.
Qed.

(** X5. [article.formats] never lists a format twice. It starts with the
    tag-derived formats, and what follows them are the formats observed in
    the tree that no tag names. *)
Theorem process_article_formats_distinct (self : FormatHandler) (article : MtgArticle) :
  NoDup (article_formats (process_article self article)) /\
  exists rest,
    article_formats (process_article self article)
    = Dict.keys (Dict.zeros (tag_formats (article_tags article))) ++ rest /\
    (forall f : string,
       In f (Dict.keys (Dict.zeros (tag_formats (article_tags article)))) <->
       In f (tag_formats (article_tags article))) /\
    (forall f : string,
       In f rest <->
       In f (observed_in_article self article) /\
       ~ In f (tag_formats (article_tags article))).
Proof.
  rewrite process_article_formats.
  pose proof (NoDup_keys_known_after self article) as Hnd.
  split; [exact Hnd|].
  rewrite known_after_replay in *.
  destruct (keys_count_all_prefix (observed_in_article self article)
              (Dict.zeros (tag_formats (article_tags article)))) as [rest Hrest].
  exists rest. split; [exact Hrest|]. split; [intros f; apply zeros_keys|].
  intros f.
  pose proof (in_keys_count_all (observed_in_article self article) f
                (Dict.zeros (tag_formats (article_tags article)))) as Hin.
  rewrite Hrest, in_app_iff, zeros_keys in Hin.
  rewrite Hrest in Hnd. split.
  - intros Hf. assert (Hnot : ~ In f (tag_formats (article_tags article))).
    { intros Ht. apply zeros_keys in Ht.
      exact (NoDup_app_disjoint _ _ _ Hnd Ht Hf). }
    split; [|exact Hnot].
    destruct (proj1 Hin (or_intror Hf)) as [Ht | Ho]; [now elim Hnot | exact Ho].
  - intros [Ho Hnot].
    destruct (proj2 Hin (or_intror Ho)) as [Ht | Hr]; [now elim Hnot | exact Hr].
Qed.

(** X6. Processing a node never removes a key from the accumulator, never
    moves one and never lowers a count: the keys it had stay in front, in
    their order, and new keys are appended after them. *)
Theorem process_content_grows (self : FormatHandler) (c : content)
    (known_formats : known_formats_t) (format_ : option string) :
  (exists rest,
     Dict.keys (snd (process_content self c known_formats format_))
     = Dict.keys known_formats ++ rest) /\
  forall g : string,
    count_of g known_formats
    <= count_of g (snd (process_content self c known_formats format_)).
Proof.
  rewrite process_content_replay. split; [apply keys_count_all_prefix|].
  intros g. rewrite count_of_count_all. lia.
Qed.

(** ** When the canonical format is set *)

Lemma get_app (g : string) (d1 d2 : known_formats_t) :
  Dict.get g (d1 ++ d2) =
  match Dict.get g d1 with
  | Some v => Some v
  | None => Dict.get g d2
  end.
Proof.
  induction d1 as [|[k v] d1 IH]; simpl; trivial.
  now destruct (String.eqb k g).
Qed.

Lemma get_all_zero (g : string) (d : known_formats_t) :
  Forall (fun x => x = 0) (Dict.values d) -> count_of g d = 0.
Proof.
  unfold count_of. induction d as [|[k v] d IH]; simpl; trivial.
  intros H. inversion H; subst. destruct (String.eqb k g); auto.
Qed.

Lemma get_in_nodup (g : string) (v : nat) (d : known_formats_t) :
  NoDup (Dict.keys d) -> In (g, v) d -> Dict.get g d = Some v.
Proof.
  induction d as [|[k n] d IH]; simpl; intros Hnd Hin; [destruct Hin|].
  inversion Hnd as [|? ? Hk Hd]; subst.
  destruct Hin as [[= -> ->] | Hin].
  - now rewrite String.eqb_refl.
  - destruct (String.eqb_spec k g) as [-> | _]; [|now apply IH].
    elim Hk. change (In (fst (g, v)) (map fst d)). now apply in_map.
Qed.

(** With distinct keys, one key holds all the occurrences exactly when its
    count is positive and every other count is zero. *)
Lemma unanimous_counts (d : known_formats_t) (k : string) :
  NoDup (Dict.keys d) ->
  unanimous (pattern d) k <->
  positive k d /\ forall g, g <> k -> count_of g d = 0.
Proof.
  intros Hnd. unfold unanimous, positive. split.
  - intros (p1 & p2 & Hp & H1 & H2). unfold pattern in Hp.
    apply map_eq_app in Hp as (d1 & d2' & -> & <- & Hp).
    apply map_eq_cons in Hp as ([k' m] & d2 & -> & He & <-).
    simpl in He. injection He as -> Hm. apply Nat.ltb_lt in Hm.
    apply pattern_zero in H1, H2.
    assert (Hk1 : Dict.get k d1 = None).
    { destruct (Dict.get k d1) eqn:E; trivial.
      assert (Hin : In k (Dict.keys d1)) by (apply get_some_in_keys; eauto).
      unfold Dict.keys in Hnd. rewrite map_app in Hnd.
      elim (NoDup_app_disjoint _ _ k Hnd Hin). now left. }
    split.
    + unfold count_of. rewrite get_app, Hk1. simpl. now rewrite String.eqb_refl.
    + intros g Hg. unfold count_of. rewrite get_app.
      pose proof (get_all_zero g d1 H1) as Z1.
      pose proof (get_all_zero g d2 H2) as Z2.
      unfold count_of in Z1, Z2.
      destruct (Dict.get g d1); [exact Z1|]. simpl.
      destruct (String.eqb_spec k g) as [-> | _]; [now elim Hg | exact Z2].
  - intros [Hpos Hothers].
    assert (Hzero : forall g v, In (g, v) d -> g <> k -> v = 0).
    { intros g v Hin Hg. specialize (Hothers g Hg). unfold count_of in Hothers.
      now rewrite (get_in_nodup g v d Hnd Hin) in Hothers. }
    unfold count_of in Hpos. destruct (Dict.get k d) as [m|] eqn:Hget; [|lia].
    assert (Hsplit : exists d1 d2, d = d1 ++ (k, m) :: d2 /\ Dict.get k d1 = None).
    { clear Hnd Hzero Hothers Hpos. induction d as [|[k' n] d IH]; [discriminate|].
      simpl in Hget. destruct (String.eqb_spec k' k) as [-> | Hne].
      - injection Hget as ->. now exists [], d.
      - destruct (IH Hget) as (d1 & d2 & -> & H1).
        exists ((k', n) :: d1), d2. split; [reflexivity|]. simpl.
        apply String.eqb_neq in Hne. now rewrite Hne. }
    destruct Hsplit as (d1 & d2 & -> & Hk1).
    assert (Hne : forall g v, In (g, v) d1 \/ In (g, v) d2 -> g <> k).
    { intros g v Hin ->. unfold Dict.keys in Hnd. rewrite map_app in Hnd. simpl in Hnd.
      destruct Hin as [Hin | Hin].
      - apply (get_none_not_in_keys k d1 Hk1).
        change (In (fst (k, v)) (map fst d1)). now apply in_map.
      - apply NoDup_app_remove_l in Hnd. inversion Hnd as [|? ? Hx _]; subst.
        apply Hx. change (In (fst (k, v)) (map fst d2)). now apply in_map. }
    exists (pattern d1), (pattern d2). split; [|split].
    + rewrite pattern_app. simpl.
      replace (0 <? m)%nat with true by (symmetry; now apply Nat.ltb_lt).
      reflexivity.
    + apply pattern_zero. unfold Dict.values. apply Forall_map, Forall_forall.
      intros [g v] Hin. simpl. apply (Hzero g v).
      * apply in_or_app. now left.
      * apply (Hne g v). now left.
    + apply pattern_zero. unfold Dict.values. apply Forall_map, Forall_forall.
      intros [g v] Hin. simpl. apply (Hzero g v).
      * apply in_or_app. right. now right.
      * apply (Hne g v). now right.
Qed.

(** X7. The canonical format of the article is set to [k] exactly when there
    is no priority format, something was observed in the tree, and every
    observation is [k]: tag-derived formats, which sit in the accumulator at
    count 0, take no part in the vote. *)
Theorem process_article_vote (self : FormatHandler) (article : MtgArticle) (k : string) :
  majority_vote (priority_format article) (known_after self article) = Some k <->
  priority_format article = None /\
  In k (observed_in_article self article) /\
  forall g : string, In g (observed_in_article self article) -> g = k.
Proof.
  destruct (priority_format article) as [p|] eqn:Hp.
  { simpl. split; [discriminate | intros [H _]; discriminate]. }
  rewrite majority_vote_unanimous,
    (unanimous_counts _ _ (NoDup_keys_known_after self article)).
  unfold positive. rewrite known_after_replay.
  assert (Hcount : forall g,
    count_of g (count_all (observed_in_article self article)
                  (Dict.zeros (tag_formats (article_tags article))))
    = count_occ string_dec (observed_in_article self article) g)
    by (intros g; now rewrite count_of_count_all, zeros_count_of).
  rewrite Hcount. split.
  - intros [Hpos Hothers]. split; [reflexivity|]. split.
    + now apply (count_occ_In string_dec).
    + intros g Hg. destruct (string_dec g k) as [-> | Hne]; trivial.
      specialize (Hothers g Hne). rewrite Hcount in Hothers.
      apply (count_occ_not_In string_dec) in Hothers. now elim Hothers.
  - intros (_ & Hin & Hall). split.
    + now apply (count_occ_In string_dec).
    + intros g Hne. rewrite Hcount. apply (count_occ_not_In string_dec).
      intros Hg. now apply Hne, Hall.
Qed.

(** ** How much is counted *)

Lemma sum_values_count_format (f : string) (d : known_formats_t) :
  Np.sum (Dict.values (count_format f d)) = S (Np.sum (Dict.values d)).
Proof.
  induction d as [|[k v] d IH].
  { unfold count_format. simpl. now rewrite String.eqb_refl. }
  rewrite count_format_cons. destruct (String.eqb k f); [reflexivity|].
  change (v + Np.sum (Dict.values (count_format f d)) = S (v + Np.sum (Dict.values d))).
  rewrite IH. lia.
Qed.

Lemma sum_values_count_all (l : list string) (d : known_formats_t) :
  Np.sum (Dict.values (count_all l d)) = Np.sum (Dict.values d) + length l.
Proof.
  revert d. induction l as [|f l IH]; intros d; [simpl; unfold count_all; simpl; lia|].
  change (count_all (f :: l) d) with (count_all l (count_format f d)).
  rewrite IH, sum_values_count_format. simpl. lia.
Qed.

Lemma sum_values_zeros (l : list string) : Np.sum (Dict.values (Dict.zeros l)) = 0.
Proof.
  apply sum_zero. apply Forall_forall. intros v Hv.
  unfold Dict.values in Hv. apply in_map_iff in Hv as ([k n] & <- & Hin). simpl.
  pose proof (get_in_nodup k n _ (NoDup_keys_zeros l) Hin) as Hget.
  pose proof (zeros_count_of l k) as Hz. unfold count_of in Hz.
  now rewrite Hget in Hz.
Qed.

Lemma observed_length_contents (self : FormatHandler) (cs : list content)
    (ov : option string) :
  Forall (fun c => forall ov, length (observed self c ov) <= nodes c) cs ->
  length (flat_map (fun c => observed self c ov) cs) <= list_sum (map nodes cs).
Proof.
  induction 1 as [|c cs Hc _ IH]; simpl; [lia|].
  rewrite length_app. specialize (Hc ov). lia.
Qed.

Lemma observed_length (self : FormatHandler) (c : content) :
  forall ov : option string, length (observed self c ov) <= nodes c.
Proof.
  induction c as [title old children IH | text old | [f|] |] using content_induction;
    intros ov; simpl; try lia.
  - pose proof (fun ov => observed_length_contents self children ov IH) as H.
    destruct ov as [f|]; [specialize (H (Some f)); lia|].
    destruct (check_format_in_title title) as [f|]; simpl.
    + specialize (H (Some f)). lia.
    + specialize (H None). lia.
  - destruct ov; simpl; [lia|]. destruct (search_in_text self); simpl; [|lia].
    destruct (text_format text); simpl; lia.
Qed.

(** X8. Every node is counted at most once: the counts that processing a
    node adds to the accumulator sum up to the number of observations made in
    it, which is at most the number of its nodes; the counts of a whole run
    sum up to the number of observations in the article. *)
Theorem process_content_counts_bounded (self : FormatHandler) (c : content)
    (known_formats : known_formats_t) (format_ : option string) :
  Np.sum (Dict.values (snd (process_content self c known_formats format_)))
  = Np.sum (Dict.values known_formats) + length (observed self c format_) /\
  length (observed self c format_) <= nodes c /\
  forall article : MtgArticle,
    Np.sum (Dict.values (known_after self article))
    = length (observed_in_article self article).
Proof.
  split; [|split].
  - now rewrite process_content_replay, sum_values_count_all.
  - apply observed_length.
  - intros article.
    now rewrite known_after_replay, sum_values_count_all, sum_values_zeros.
Qed.

(** ** The format found in a text *)

Lemma occurrences_positive (f s : string) :
  0 < occurrences f s <-> PyStr.contains f s = true.
Proof.
  induction s as [|c s IH]; rewrite occurrences_unfold, contains_unfold.
  - destruct (PyStr.startswith f ""); simpl; split; intros H; try lia; discriminate.
  - destruct (PyStr.startswith f (String c s)); simpl.
    + split; [reflexivity | lia].
    + exact IH.
Qed.

Lemma text_occurences_in (text : string) (g : string) :
  In g MTGFORMATS -> In (occurrences g (PyStr.lower text)) (text_occurences text).
Proof.
  intros Hg. apply In_nth_error in Hg as [j Hj].
  eapply nth_error_In. apply (text_occurences_nth text j g Hj).
Qed.

Lemma text_occurences_zero (text : string) :
  Np.sum (text_occurences text) = 0 <->
  forall g, In g MTGFORMATS -> ~ PyStr.is_substring g (PyStr.lower text).
Proof.
  rewrite sum_zero, Forall_forall. split.
  - intros H g Hg Hsub. apply contains_spec, occurrences_positive in Hsub.
    specialize (H _ (text_occurences_in text g Hg)). lia.
  - intros H x Hx. unfold text_occurences in Hx.
    apply in_map_iff in Hx as (g & <- & Hg).
    rewrite (count_occurrences g _ Hg).
    destruct (occurrences g (PyStr.lower text)) eqn:E; trivial.
    elim (H g Hg). apply contains_spec, occurrences_positive. lia.
Qed.

(** X9. The text search finds no format exactly when none of the six format
    names occurs in the lower-cased text. A format it finds is one of the six
    names, occurs in the lower-cased text, and no other name occurs there
    more often. *)
Theorem text_format_spec (text : string) :
  (text_format text = None <->
   forall g, In g MTGFORMATS -> ~ PyStr.is_substring g (PyStr.lower text)) /\
  forall f : string,
    text_format text = Some f ->
    In f MTGFORMATS /\
    PyStr.is_substring f (PyStr.lower text) /\
    forall g, In g MTGFORMATS ->
      occurrences g (PyStr.lower text) <= occurrences f (PyStr.lower text).
Proof.
  split.
  - rewrite <- text_occurences_zero. split.
    + intros Hnone.
      destruct (Nat.eq_dec (Np.sum (text_occurences text)) 0) as [Hz | Hnz]; trivial.
      destruct (text_format_some text) as (i & m & f & _ & _ & Hf); [lia | congruence].
    + apply text_format_none.
  - intros f Hf.
    destruct (Nat.eq_dec (Np.sum (text_occurences text)) 0) as [Hz | Hnz].
    { rewrite (text_format_none _ Hz) in Hf. discriminate. }
    destruct (text_format_some text) as (i & m & f' & Hfm & Hi & Hf'); [lia|].
    rewrite Hf in Hf'. injection Hf' as <-.
    pose proof (first_max_nth _ _ _ Hfm) as Hnth.
    rewrite (text_occurences_nth text i f Hi) in Hnth. injection Hnth as <-.
    assert (Hup : forall g, In g MTGFORMATS ->
              occurrences g (PyStr.lower text) <= occurrences f (PyStr.lower text)).
    { intros g Hg. apply In_nth_error in Hg as [j Hj].
      apply (first_max_upper _ _ _ Hfm j). now apply text_occurences_nth. }
    split; [eapply nth_error_In, Hi|]. split; [|exact Hup].
    apply contains_spec, occurrences_positive.
    destruct (occurrences f (PyStr.lower text)) eqn:E; [|lia].
    elim Hnz. apply sum_zero, Forall_forall. intros x Hx.
    unfold text_occurences in Hx. apply in_map_iff in Hx as (g & <- & Hg).
    rewrite (count_occurrences g _ Hg). specialize (Hup g Hg). lia.
Qed.

(** ** Texts when they are not searched *)

Lemma process_contents_with_text (text : string) (cs : list content)
    (format_ : option string) :
  Forall (fun c => forall kf ov,
            process_content (mkHandler false) (with_text text c) kf ov
            = (with_text text (fst (process_content (mkHandler false) c kf ov)),
               snd (process_content (mkHandler false) c kf ov))) cs ->
  forall kf,
    process_contents (mkHandler false) (map (with_text text) cs) kf format_
    = (map (with_text text) (fst (process_contents (mkHandler false) cs kf format_)),
       snd (process_contents (mkHandler false) cs kf format_)).
Proof.
  induction 1 as [|c cs Hc _ IH]; intros kf; [reflexivity|].
  cbn [map]. rewrite !process_contents_cons. cbn [fst snd map].
  rewrite Hc. cbn [fst snd]. now rewrite IH.
Qed.

(** X10. With [search_in_text] disabled the texts of the blocks play no
    part: putting any text in place of every block text changes neither the
    accumulator nor any format written on the tree. *)
Theorem process_content_ignores_text (text : string) (c : content)
    (known_formats : known_formats_t) (format_ : option string) :
  process_content (mkHandler false) (with_text text c) known_formats format_
  = (with_text text (fst (process_content (mkHandler false) c known_formats format_)),
     snd (process_content (mkHandler false) c known_formats format_)).
Proof.
  revert known_formats format_.
  induction c as [title old children IH | t old | [f|] |] using content_induction;
    intros kf ov; try reflexivity.
  - cbn [with_text]. rewrite !process_content_section, !process_section_eq.
    cbn [fst snd with_text].
    now rewrite (process_contents_with_text text children _ IH).
  - cbn [with_text process_content]. unfold process_block.
    now destruct ov.
Qed.

(** ** Letter case *)

Lemma lower_swap_ascii (c : ascii) :
  PyStr.lower_ascii (swap_ascii c) = PyStr.lower_ascii c.
Proof. destruct c as [[] [] [] [] [] [] [] []]; reflexivity. Qed.

Lemma case_variant_lower (s t : string) :
  case_variant s t = true -> PyStr.lower s = PyStr.lower t.
Proof.
  revert t. induction s as [|a s IH]; intros [|b t]; simpl; try discriminate; trivial.
  intros H. apply andb_true_iff in H as [Hc Hs].
  rewrite (IH t Hs). f_equal.
  apply orb_true_iff in Hc as [Hc | Hc]; apply Ascii.eqb_eq in Hc; subst; trivial.
  symmetry. apply lower_swap_ascii.
Qed.

Lemma case_variants_tag_formats (tags1 tags2 : list string) :
  case_variants tags1 tags2 = true -> tag_formats tags1 = tag_formats tags2.
Proof.
  unfold tag_formats. revert tags2.
  induction tags1 as [|s tags1 IH]; intros [|t tags2]; simpl; try discriminate; trivial.
  intros H. apply andb_true_iff in H as [Hs Hl]. apply case_variant_lower in Hs.
  rewrite Hs. destruct (in_formats (PyStr.lower t)); simpl;
    [rewrite Hs; f_equal|]; now apply IH.
Qed.

(** X11. Matching ignores the case of ASCII letters: when a string is turned
    into another by changing the case of some of its ASCII letters, the title
    matcher gives the same result on both and so does the text search; tags
    changed in that way give the same tag-derived formats, and an article
    whose title and tags are changed in that way has the same priority
    format. *)
Theorem matching_ignores_case (s t : string) (tags1 tags2 : list string) :
  case_variant s t = true ->
  case_variants tags1 tags2 = true ->
  check_format_in_title (Some s) = check_format_in_title (Some t) /\
  text_format s = text_format t /\
  tag_formats tags1 = tag_formats tags2 /\
  forall (formats : list string) (format_ : option string) (cs : list content),
    priority_format (mkArticle (Some s) tags1 formats format_ cs)
    = priority_format (mkArticle (Some t) tags2 formats format_ cs).
Proof.
  intros Hs Ht. pose proof (case_variant_lower s t Hs) as Hl.
  pose proof (case_variants_tag_formats tags1 tags2 Ht) as Htags.
  assert (Htitle : check_format_in_title (Some s) = check_format_in_title (Some t))
    by (unfold check_format_in_title; now rewrite Hl).
  split; [exact Htitle|]. split; [|split; [exact Htags|]].
  - unfold text_format, text_occurences. now rewrite Hl.
  - intros formats format_ cs. unfold priority_format.
    cbn [article_title article_tags]. now rewrite Htags, Htitle.
Qed.

Lemma matching_ignores_case_witness :
  check_format_in_title (Some "Top 8 STANDARD decks")
  = check_format_in_title (Some "tOP 8 standard DECKS") /\
  text_format "Top 8 STANDARD decks" = text_format "tOP 8 standard DECKS" /\
  tag_formats ["News"; "PIONEER"] = tag_formats ["NEWS"; "Pioneer"] /\
  forall (formats : list string) (format_ : option string) (cs : list content),
    priority_format
      (mkArticle (Some "Top 8 STANDARD decks") ["News"; "PIONEER"] formats format_ cs)
    = priority_format
        (mkArticle (Some "tOP 8 standard DECKS") ["NEWS"; "Pioneer"] formats format_ cs).
Proof.
  apply (matching_ignores_case "Top 8 STANDARD decks" "tOP 8 standard DECKS"
           ["News"; "PIONEER"] ["NEWS"; "Pioneer"]); reflexivity.
Defined.

(** ** Formats stay in the vocabulary *)

Lemma check_format_in_title_canonical (title : option string) :
  canonical (check_format_in_title title).
Proof.
  destruct title as [t|]; [|exact I].
  rewrite check_format_in_title_the_only.
  destruct (the_only _) as [f|] eqn:E; [|exact I].
  apply the_only_some in E. unfold canonical.
  assert (Hin : In f (filter (fun g => PyStr.contains g (PyStr.lower t)) MTGFORMATS))
    by (rewrite E; now left).
  now apply filter_In in Hin.
Qed.

Lemma text_format_canonical (text : string) : canonical (text_format text).
Proof.
  unfold text_format. destruct (Np.sum (text_occurences text) =? 0)%nat; [exact I|].
  destruct (Np.argmax (text_occurences text)) as [i|]; [|exact I].
  destruct (nth_error MTGFORMATS i) as [f|] eqn:E; [|exact I].
  unfold canonical. eapply nth_error_In, E.
Qed.

Lemma priority_format_canonical (article : MtgArticle) :
  canonical (priority_format article).
Proof.
  unfold priority_format.
  destruct (length (tag_formats (article_tags article)) =? 1)%nat;
    [|apply check_format_in_title_canonical].
  destruct (nth_error (tag_formats (article_tags article)) 0) as [f|] eqn:E; [|exact I].
  unfold canonical. apply nth_error_In in E. now apply tag_formats_spec in E.
Qed.

Lemma section_format_canonical (title : option string) (kf : known_formats_t)
    (ov : option string) :
  canonical ov -> canonical (fst (section_format title kf ov)).
Proof.
  intros H. rewrite section_format_fst. destruct ov; [exact H|].
  apply check_format_in_title_canonical.
Qed.

Lemma process_contents_canonical (self : FormatHandler)
    (views : content -> list (option string)) (cs : list content)
    (format_ : option string) :
  Forall (fun c => forall kf,
            Forall canonical (views c) ->
            Forall canonical (views (fst (process_content self c kf format_)))) cs ->
  forall kf,
    Forall canonical (flat_map views cs) ->
    Forall canonical (flat_map views (fst (process_contents self cs kf format_))).
Proof.
  induction 1 as [|c cs Hc _ IH]; intros kf Hin; [constructor|].
  rewrite process_contents_cons. cbn [fst flat_map] in *.
  apply Forall_app in Hin as [H1 H2]. apply Forall_app. split; auto.
Qed.

Lemma process_content_section_formats_canonical (self : FormatHandler) (c : content) :
  forall (kf : known_formats_t) (ov : option string),
    canonical ov ->
    Forall canonical (section_formats (fst (process_content self c kf ov))).
Proof.
  induction c as [title old children IH | text old | [f|] |] using content_induction;
    intros kf ov Hov; try solve [simpl; constructor].
  - rewrite process_content_section, process_section_eq. cbn [fst section_formats].
    pose proof (section_format_canonical title kf ov Hov) as Hfmt.
    constructor; [exact Hfmt|].
    set (fmt := fst (section_format title kf ov)) in *.
    generalize (snd (section_format title kf ov)). clear Hov.
    induction IH as [|c cs Hc _ IHcs]; intros kf'; [constructor|].
    rewrite process_contents_cons. cbn [fst flat_map].
    apply Forall_app. split; [now apply Hc | apply IHcs].
  - cbn [process_content].
    destruct (process_block_shape self text old kf ov) as [x ->]. constructor.
Qed.

Lemma process_content_block_formats_canonical (self : FormatHandler) (c : content) :
  forall (kf : known_formats_t) (ov : option string),
    canonical ov ->
    Forall canonical (block_formats c) ->
    Forall canonical (block_formats (fst (process_content self c kf ov))).
Proof.
  induction c as [title old children IH | text old | [f|] |] using content_induction;
    intros kf ov Hov Hin; try solve [simpl; constructor].
  - rewrite process_content_section, process_section_eq. cbn [fst block_formats] in *.
    apply process_contents_canonical; [|exact Hin].
    eapply Forall_impl; [|exact IH]. intros c Hc kf'. apply Hc.
    now apply section_format_canonical.
  - cbn [process_content]. unfold process_block. destruct ov as [f|].
    + simpl. constructor; [exact Hov | constructor].
    + destruct (search_in_text self); [|exact Hin].
      pose proof (text_format_canonical text) as Ht.
      destruct (text_format text); [|exact Hin].
      simpl. constructor; [exact Ht | constructor].
Qed.

Lemma process_content_decklist_formats_canonical (self : FormatHandler) (c : content) :
  forall (kf : known_formats_t) (ov : option string),
    canonical ov ->
    Forall canonical (decklist_formats c) ->
    Forall canonical (decklist_formats (fst (process_content self c kf ov))).
Proof.
  induction c as [title old children IH | text old | [f|] |] using content_induction;
    intros kf ov Hov Hin; try solve [simpl; constructor]; try exact Hin.
  - rewrite process_content_section, process_section_eq. cbn [fst decklist_formats] in *.
    apply process_contents_canonical; [|exact Hin].
    eapply Forall_impl; [|exact IH]. intros c Hc kf'. apply Hc.
    now apply section_format_canonical.
  - cbn [process_content].
    destruct (process_block_shape self text old kf ov) as [x ->]. constructor.
  - simpl. constructor; [exact Hov | constructor].
Qed.

Lemma observed_canonical (self : FormatHandler) (c : content) :
  forall ov : option string,
    Forall canonical (decklist_formats c) ->
    Forall (fun f => In f MTGFORMATS) (observed self c ov).
Proof.
  induction c as [title old children IH | text old | [f|] |] using content_induction;
    intros ov Hin; try solve [simpl; constructor].
  - cbn [decklist_formats] in Hin. apply Forall_flat_map in Hin.
    assert (Hcs : forall ov', Forall (fun f => In f MTGFORMATS)
                    (flat_map (fun c => observed self c ov') children)).
    { intros ov'. apply Forall_flat_map.
      apply Forall_forall. intros c Hc.
      rewrite Forall_forall in IH, Hin. now apply IH, Hin. }
    cbn [observed]. destruct ov as [f|]; [apply Hcs|].
    pose proof (check_format_in_title_canonical title) as Ht.
    destruct (check_format_in_title title); [|apply Hcs].
    constructor; [exact Ht | apply Hcs].
  - simpl. destruct ov; [constructor|].
    destruct (search_in_text self); [|constructor].
    pose proof (text_format_canonical text) as Ht.
    destruct (text_format text); constructor; [exact Ht | constructor].
  - simpl. inversion Hin; subst. constructor; [assumption | constructor].
Qed.

(** X12. Formats stay in the vocabulary. The priority format is null or one
    of the six names, and so is the format of every section after a run.
    When the blocks of the tree carry null or one of the six names on input,
    they do on output. When the decklists do on input, they do on output,
    [article.formats] holds names of the vocabulary only, and the canonical
    format of the article stays null or in the vocabulary if it was. *)
Theorem process_article_canonical (self : FormatHandler) (article : MtgArticle) :
  canonical (priority_format article) /\
  Forall canonical
    (flat_map section_formats (article_content (process_article self article))) /\
  (Forall canonical (flat_map block_formats (article_content article)) ->
   Forall canonical
     (flat_map block_formats (article_content (process_article self article)))) /\
  (Forall canonical (flat_map decklist_formats (article_content article)) ->
   Forall canonical
     (flat_map decklist_formats (article_content (process_article self article))) /\
   Forall (fun f => In f MTGFORMATS) (article_formats (process_article self article)) /\
   (canonical (article_format article) ->
    canonical (article_format (process_article self article)))).
Proof.
  pose proof (priority_format_canonical article) as Hp.
  rewrite process_article_content. unfold traverse_article.
  split; [exact Hp|]. split; [|split].
  - generalize (Dict.zeros (tag_formats (article_tags article))).
    induction (article_content article) as [|c cs IH]; intros kf; [constructor|].
    rewrite process_contents_cons. cbn [fst flat_map]. apply Forall_app. split.
    + now apply process_content_section_formats_canonical.
    + apply IH.
  - apply process_contents_canonical. apply Forall_forall. intros c _ kf.
    now apply process_content_block_formats_canonical.
  - intros Hd.
    assert (Hformats : Forall (fun f => In f MTGFORMATS)
                         (article_formats (process_article self article))).
    { rewrite process_article_formats, known_after_replay. apply Forall_forall.
      intros f Hf. apply in_keys_count_all in Hf as [Hf | Hf].
      - apply (proj1 (zeros_keys _ _)) in Hf.
        now apply (proj1 (tag_formats_spec _ _)) in Hf.
      - revert f Hf. apply Forall_forall. unfold observed_in_article.
        apply Forall_flat_map. apply Forall_flat_map in Hd.
        eapply Forall_impl; [|exact Hd]. intros c Hc.
        now apply observed_canonical. }
    split; [|split; [exact Hformats|]].
    + apply process_contents_canonical; [|exact Hd].
      apply Forall_forall. intros c _ kf.
      now apply process_content_decklist_formats_canonical.
    + intros Ha. rewrite process_article_format.
      destruct (majority_vote (priority_format article) (known_after self article))
        as [k|] eqn:E; [|exact Ha].
      destruct (priority_format article); [discriminate|].
      apply majority_vote_some in E as (_ & _ & i & m & Hnth & _).
      rewrite process_article_formats in Hformats.
      rewrite Forall_forall in Hformats. apply Hformats.
      apply nth_error_In in Hnth.
      change (In (fst (k, m)) (map fst (known_after self article))).
      now apply in_map.
Qed.

(** ** Stamps and counts do not interfere *)

Lemma process_contents_fst_independent (self : FormatHandler) (cs : list content)
    (format_ : option string) :
  Forall (fun c => forall kf kf' ov,
            fst (process_content self c kf ov) = fst (process_content self c kf' ov)) cs ->
  forall kf kf',
    fst (process_contents self cs kf format_) = fst (process_contents self cs kf' format_).
Proof.
  induction 1 as [|c cs Hc _ IH]; intros kf kf'; [reflexivity|].
  rewrite !process_contents_cons. cbn [fst].
  now rewrite (Hc kf kf'), (IH _ (snd (process_content self c kf' format_))).
Qed.

Lemma process_content_fst_independent (self : FormatHandler) (c : content) :
  forall (kf kf' : known_formats_t) (ov : option string),
    fst (process_content self c kf ov) = fst (process_content self c kf' ov).
Proof.
  induction c as [title old children IH | text old | [f|] |] using content_induction;
    intros kf kf' ov; try reflexivity.
  - rewrite !process_content_section, !process_section_eq. cbn [fst].
    rewrite !section_format_fst. f_equal.
    now apply process_contents_fst_independent.
  - cbn [process_content]. unfold process_block. destruct ov; [reflexivity|].
    destruct (search_in_text self); [|reflexivity].
    now destruct (text_format text).
Qed.

Lemma process_contents_app (self : FormatHandler) (cs1 cs2 : list content)
    (kf : known_formats_t) (ov : option string) :
  process_contents self (cs1 ++ cs2) kf ov =
  (fst (process_contents self cs1 kf ov)
     ++ fst (process_contents self cs2 (snd (process_contents self cs1 kf ov)) ov),
   snd (process_contents self cs2 (snd (process_contents self cs1 kf ov)) ov)).
Proof.
  revert kf. induction cs1 as [|c cs1 IH]; intros kf.
  - simpl. now destruct (process_contents self cs2 kf ov).
  - rewrite <- app_comm_cons, !process_contents_cons, IH. reflexivity.
Qed.

(** X13. The formats written on a node depend on the node and on the
    override only, never on the accumulator: what was counted in earlier
    siblings has no influence on them. A sequence of nodes is processed from
    left to right, each node starting from the accumulator its predecessors
    left. *)
Theorem process_content_stamps_independent (self : FormatHandler)
    (format_ : option string) :
  (forall (c : content) (kf kf' : known_formats_t),
     fst (process_content self c kf format_)
     = fst (process_content self c kf' format_)) /\
  forall (cs1 cs2 : list content) (kf : known_formats_t),
    process_contents self (cs1 ++ cs2) kf format_ =
    (fst (process_contents self cs1 kf format_)
       ++ fst (process_contents self cs2 kf format_),
     snd (process_contents self cs2 (snd (process_contents self cs1 kf format_))
            format_)).
Proof.
  split.
  - intros c kf kf'. apply process_content_fst_independent.
  - intros cs1 cs2 kf. rewrite process_contents_app. f_equal. f_equal.
    apply process_contents_fst_independent.
    apply Forall_forall. intros c _. apply process_content_fst_independent.
Qed.

(** ** An article with a priority format *)

(** X14. When the article has a priority format [f], a run writes [f] on
    every section and on every block of the tree, leaves the canonical format
    of the article as it was, and counts nothing but the formats that the
    decklists already carry, on top of the tag-derived formats. *)
Theorem process_article_with_priority (self : FormatHandler) (article : MtgArticle)
    (f : string) :
  priority_format article = Some f ->
  flat_map section_formats (article_content (process_article self article))
  = map (fun _ => Some f) (flat_map section_formats (article_content article)) /\
  flat_map block_formats (article_content (process_article self article))
  = map (fun _ => Some f) (flat_map block_formats (article_content article)) /\
  article_format (process_article self article) = article_format article /\
  known_after self article
  = count_all (flat_map preset_formats (article_content article))
      (Dict.zeros (tag_formats (article_tags article))).
Proof.
  intros Hp. rewrite process_article_content, process_article_format.
  rewrite known_after_replay. unfold traverse_article, observed_in_article.
  rewrite Hp. split; [|split; [|split]].
  - rewrite map_flat_map. apply process_contents_fst_flat_map.
    apply Forall_forall. intros c _ kf. apply override_section_formats.
  - rewrite map_flat_map. apply process_contents_fst_flat_map.
    apply Forall_forall. intros c _ kf. apply override_block_formats.
  - reflexivity.
  - f_equal. apply flat_map_pointwise.
    apply Forall_forall. intros c _. apply observed_override.
Qed.

Lemma process_article_with_priority_witness :
  flat_map section_formats
    (article_content (process_article (mkHandler true) single_tag_article))
  = [Some "standard"] /\
  flat_map block_formats
    (article_content (process_article (mkHandler true) single_tag_article))
  = [Some "standard"] /\
  article_format (process_article (mkHandler true) single_tag_article) = None /\
  known_after (mkHandler true) single_tag_article
  = [("standard", 0); ("modern", 1)].
Proof.
  apply (process_article_with_priority (mkHandler true) single_tag_article "standard").
  reflexivity.
Defined.

(** ** The test cases of the specification *)

Example majority_vote_single :
  majority_vote None [("standard", 3)] = Some "standard".
Proof. reflexivity. Qed.

Example majority_vote_not_unanimous :
  majority_vote None [("standard", 2); ("pioneer", 1)] = None.
Proof. reflexivity. Qed.

Example majority_vote_zero_entries :
  majority_vote None [("pioneer", 0); ("standard", 3)] = Some "standard".
Proof. reflexivity. Qed.

Example majority_vote_all_zero :
  majority_vote None [("pioneer", 0); ("standard", 0)] = None.
Proof. reflexivity. Qed.

Example check_format_in_title_one :
  check_format_in_title (Some "Top 8 STANDARD decks") = Some "standard".
Proof. reflexivity. Qed.

Example check_format_in_title_two :
  check_format_in_title (Some "From Pioneer to Explorer") = None.
Proof. reflexivity. Qed.

Example check_format_in_title_zero :
  check_format_in_title (Some "Weekly metagame") = None.
Proof. reflexivity. Qed.

Example priority_format_one_tag :
  priority_format
    {| article_title := Some "Pioneer Deck Tech";
       article_tags := ["News"; "Standard"];
       article_formats := [];
       article_format := None;
       article_content := [] |} = Some "standard".
Proof. reflexivity. Qed.

Example priority_format_two_tags :
  priority_format
    {| article_title := Some "Weekly metagame";
       article_tags := ["Standard"; "limited"];
       article_formats := [];
       article_format := None;
       article_content := [] |} = None.
Proof. reflexivity. Qed.

(** Two tags that lower-case to the same format make two entries of the
    tag-derived list: the title is consulted. *)
Example priority_format_repeated_tag :
  priority_format
    {| article_title := Some "Pioneer Deck Tech";
       article_tags := ["Standard"; "standard"];
       article_formats := [];
       article_format := None;
       article_content := [] |} = Some "pioneer".
Proof. reflexivity. Qed.

Example process_block_tie :
  process_content (mkHandler true) (Block "Pioneer or Standard?" None) [] None
  = (Block "Pioneer or Standard?" (Some "standard"), [("standard", 1)]).
Proof. reflexivity. Qed.

Example process_block_no_search :
  process_content (mkHandler false) (Block "Pioneer or Standard?" None) [] None
  = (Block "Pioneer or Standard?" None, []).
Proof. reflexivity. Qed.

Example process_decklist_override_ignored :
  process_content (mkHandler true) (Decklist (Some "modern"))
    [("pioneer", 1)] (Some "pioneer")
  = (Decklist (Some "modern"), [("pioneer", 1); ("modern", 1)]).
Proof. reflexivity. Qed.

Example process_article_standard :
  process_article (mkHandler true) standard_article =
    {| article_title := None;
       article_tags := [];
       article_formats := ["standard"];
       article_format := Some "standard";
       article_content :=
         [Section (Some "Standard brews") (Some "standard")
            [Block "two standard lists" (Some "standard");
             Decklist (Some "standard")]] |}.
Proof. reflexivity. Qed.
